(** * Fill-in-the-blank quiz maker: selection store and quiz engine

    A shallow embedding of the three React components of the repository
    ([src/App.tsx], its TypeScript successor, and [src/Editor.tsx]) together
    with the part of the JavaScript runtime they lean on: strings as
    sequences of UTF-16 code units, insertion-ordered [Set]s, regular
    expressions built by [new RegExp], and [String.prototype.replace] with
    either a replacement template or a replacer callback. *)

From Stdlib Require Import String Ascii NArith Decimal DecimalString DecimalN Lia.
From stdpp Require Import base numbers option list.

(** ** JavaScript strings *)

(** A UTF-16 code unit. *)
Definition cu := N.

(** A JavaScript string: a finite sequence of code units. *)
Definition jsstring := list cu.

(** ASCII source literals, one code unit per character. *)
Fixpoint str (s : string) : jsstring :=
  match s with
  | EmptyString => []
  | String a s' => N_of_ascii a :: str s'
  end.
Arguments str s%_string.

Definition ch (a : ascii) : cu := N_of_ascii a.
Arguments ch a%_char.

Definition LF : cu := 10%N.
Definition DQUOTE : cu := 34%N.
Definition DOLLAR : cu := ch "$".
Definition AMP : cu := ch "&".
Definition BACKTICK : cu := ch "`".
Definition APOSTROPHE : cu := ch "'".
Definition BACKSLASH : cu := ch "\".
Definition LPAREN : cu := ch "(".
Definition RPAREN : cu := ch ")".
Definition BAR : cu := ch "|".
Definition DOT : cu := ch ".".

(** [x.includes(c)] on a list of code units. *)
Definition cu_in (c : cu) (cs : list cu) : bool := existsb (N.eqb c) cs.

(** Number-to-string conversion of a template literal [${n}], for the
    non-negative integers a question counter takes. *)
Definition toString (n : N) : jsstring :=
  str (NilZero.string_of_uint (N.to_uint n)).

(** ECMAScript [WhiteSpace] and [LineTerminator] code units, the ones
    [String.prototype.trim] strips. *)
Definition isWhiteSpace (c : cu) : bool :=
  cu_in c [9; 10; 11; 12; 13; 32; 160; 5760; 8232; 8233; 8239; 8287; 12288; 65279]%N
  || ((8192 <=? c) && (c <=? 8202))%N.

Definition isLineTerminator (c : cu) : bool :=
  cu_in c [10; 13; 8232; 8233]%N.

Fixpoint trimStart (s : jsstring) : jsstring :=
  match s with
  | [] => []
  | c :: s' => if isWhiteSpace c then trimStart s' else s
  end.

Definition trimEnd (s : jsstring) : jsstring := rev (trimStart (rev s)).

Definition trim (s : jsstring) : jsstring := trimEnd (trimStart s).

(** [s1 === s2] on strings. *)
Definition jsstring_eqb (s1 s2 : jsstring) : bool := bool_decide (s1 = s2).

(** [arr.includes(x)] on an array of strings. *)
Definition includes (arr : list jsstring) (x : jsstring) : bool :=
  existsb (jsstring_eqb x) arr.

(** [arr.join(sep)]. *)
Fixpoint join (sep : jsstring) (arr : list jsstring) : jsstring :=
  match arr with
  | [] => []
  | [x] => x
  | x :: rest => x ++ sep ++ join sep rest
  end.

(** ** Insertion-ordered sets ([Set]) *)

(** A [Set<string>] keeps its elements in insertion order, which is the
    order [Array.from] and [forEach] see: a duplicate-free list. *)
Definition StringSet := list jsstring.

Definition Set_add (x : jsstring) (s : StringSet) : StringSet :=
  if decide (x ∈ s) then s else s ++ [x].

Definition Set_delete (x : jsstring) (s : StringSet) : StringSet :=
  filter (λ y, y ≠ x) s.

Definition Set_size (s : StringSet) : nat := length s.

Definition Array_from (s : StringSet) : list jsstring := s.

(** ** Regular expressions *)

(** The pattern fragment the components use: characters, identity escapes,
    [.], one character class, sequencing, alternation and capture groups. *)
Inductive regex : Type :=
| REmpty
| RChar (c : cu)
| RAny
| RClass (cs : list cu)
| RSeq (r1 r2 : regex)
| RAlt (r1 r2 : regex)
| RGroup (r : regex).

(** [SyntaxCharacter] of the pattern grammar. *)
Definition syntaxChars : list cu := str ".*+?^${}()|[]\".

Definition isSyntaxChar (c : cu) : bool := cu_in c syntaxChars.

(** Recursive-descent parser for [Disjunction] and [Alternative].  The
    result carries the unread rest of the pattern.  [None] stands for a
    pattern outside the fragment: a [SyntaxError] of [new RegExp], or a
    construct (quantifier, assertion, class) this model leaves out. *)
Fixpoint parseAlternative (fuel : nat) (p : jsstring) : option (regex * jsstring) :=
  match fuel with
  | O => None
  | S f =>
    match p with
    | [] => Some (REmpty, [])
    | c :: rest =>
      if (c =? BAR)%N || (c =? RPAREN)%N then Some (REmpty, p)
      else if (c =? BACKSLASH)%N then
        match rest with
        | d :: rest' =>
          if isSyntaxChar d then
            '(r, q) ← parseAlternative f rest'; Some (RSeq (RChar d) r, q)
          else None
        | [] => None
        end
      else if (c =? DOT)%N then
        '(r, q) ← parseAlternative f rest; Some (RSeq RAny r, q)
      else if (c =? LPAREN)%N then
        '(d, q1) ← parseDisjunction f rest;
        match q1 with
        | c' :: q2 =>
          if (c' =? RPAREN)%N then
            '(r, q3) ← parseAlternative f q2; Some (RSeq (RGroup d) r, q3)
          else None
        | [] => None
        end
      else if isSyntaxChar c then None
      else '(r, q) ← parseAlternative f rest; Some (RSeq (RChar c) r, q)
    end
  end
with parseDisjunction (fuel : nat) (p : jsstring) : option (regex * jsstring) :=
  match fuel with
  | O => None
  | S f =>
    '(a, q1) ← parseAlternative f p;
    match q1 with
    | c :: q2 =>
      if (c =? BAR)%N then
        '(d, q3) ← parseDisjunction f q2; Some (RAlt a d, q3)
      else Some (a, q1)
    | [] => Some (a, q1)
    end
  end.

(** [new RegExp(pattern, 'g')]. *)
Definition RegExp (pattern : jsstring) : option regex :=
  match parseDisjunction (2 * length pattern + 2) pattern with
  | Some (r, []) => Some r
  | _ => None
  end.

(** Backtracking matcher in continuation style.  [rmatch r s k] matches [r]
    against a prefix of [s] and hands the unread rest to [k]; alternatives
    are tried left to right. *)
Fixpoint rmatch (r : regex) (s : jsstring) (k : jsstring → option jsstring)
  : option jsstring :=
  match r with
  | REmpty => k s
  | RChar c =>
    match s with
    | x :: s' => if (x =? c)%N then k s' else None
    | [] => None
    end
  | RAny =>
    match s with
    | x :: s' => if isLineTerminator x then None else k s'
    | [] => None
    end
  | RClass cs =>
    match s with
    | x :: s' => if cu_in x cs then k s' else None
    | [] => None
    end
  | RSeq r1 r2 => rmatch r1 s (λ s', rmatch r2 s' k)
  | RAlt r1 r2 =>
    match rmatch r1 s k with
    | Some e => Some e
    | None => rmatch r2 s k
    end
  | RGroup r' => rmatch r' s k
  end.

(** A match attempt at the start of [s]: the unread rest on success. *)
Definition matchAt (r : regex) (s : jsstring) : option jsstring :=
  rmatch r s Some.

(** ** [String.prototype.replace] with a global regular expression *)

Section Replace.
Context {St : Type}.
Variable re : regex.
(** The replacement of one match: given the replacer's state, the matched
    text, and the text before and after the match in the original
    string. *)
Variable replaceValue : St → jsstring → jsstring → jsstring → St * jsstring.

(** Left-to-right scan.  [before] is the part of the original string
    already passed, [skip] the number of code units of the current match
    still to be consumed.  An empty match is followed by one copied code
    unit, as [lastIndex] advances by one. *)
Fixpoint replace_go (st : St) (before : jsstring) (skip : nat) (t : jsstring)
  : St * jsstring :=
  match t with
  | [] =>
    match skip, matchAt re [] with
    | O, Some _ => replaceValue st [] before []
    | _, _ => (st, [])
    end
  | c :: t' =>
    match skip with
    | S k => replace_go st (before ++ [c]) k t'
    | O =>
      match matchAt re t with
      | Some rest =>
        let n := length t - length rest in
        let '(st1, sub) := replaceValue st (take n t) before rest in
        match n with
        | O =>
          let '(st2, out) := replace_go st1 (before ++ [c]) 0 t' in
          (st2, sub ++ c :: out)
        | S k =>
          let '(st2, out) := replace_go st1 (before ++ [c]) k t' in
          (st2, sub ++ out)
        end
      | None =>
        let '(st2, out) := replace_go st (before ++ [c]) 0 t' in
        (st2, c :: out)
      end
    end
  end.
End Replace.

(** [GetSubstitution] for a regular expression without capture groups:
    [$$], [$&], [$`] and [$'] are expanded, every other [$] is literal. *)
Fixpoint getSubstitution (tmpl matched before after : jsstring) : jsstring :=
  match tmpl with
  | [] => []
  | c :: rest =>
    if (c =? DOLLAR)%N then
      match rest with
      | d :: rest' =>
        if (d =? DOLLAR)%N then DOLLAR :: getSubstitution rest' matched before after
        else if (d =? AMP)%N then matched ++ getSubstitution rest' matched before after
        else if (d =? BACKTICK)%N then
          before ++ getSubstitution rest' matched before after
        else if (d =? APOSTROPHE)%N then
          after ++ getSubstitution rest' matched before after
        else DOLLAR :: getSubstitution rest matched before after
      | [] => [DOLLAR]
      end
    else c :: getSubstitution rest matched before after
  end.

(** [s.replace(re, tmpl)] for a global, capture-free [re] and a replacement
    string. *)
Definition replace (re : regex) (tmpl : jsstring) (s : jsstring) : jsstring :=
  snd (replace_go re (λ (_ : unit) m b a, (tt, getSubstitution tmpl m b a)) tt [] 0 s).

(** [s.replace(re, fn)] for a global [re] and a replacer callback closing
    over mutable state of type [St]; only the whole match is passed on. *)
Definition replaceWith {St : Type} (re : regex) (fn : St → jsstring → St * jsstring)
    (st : St) (s : jsstring) : St * jsstring :=
  replace_go re (λ st m _ _, fn st m) st [] 0 s.

(** The literal [/[.*+?^${}()|[\]\\]/g]. *)
Definition metaCharClass : regex := RClass (str ".*+?^${}()|[]\").

(** [word.replace(/[.*+?^${}()|[\]\\]/g, '\\$&')]. *)
Definition escapeRegExp (word : jsstring) : jsstring :=
  replace metaCharClass (str "\$&") word.

(** The literal [/\n/g]. *)
Definition newlineRe : regex := RChar LF.

(** ** Shared pieces of the three components *)

Inductive viewModeType := select | quiz.

Inductive displayModeType := markdownOnly | previewOnly | separate.

(** [type AnswerData = { number: number; word: string }]. *)
Record AnswerData := { number : N; word : jsstring }.

(** What a click handler reads of [e.target]. *)
Record ClickTarget := { tagName : jsstring; innerText : jsstring }.

(** [arr.forEach(body)] over a body that updates local variables [L] and
    may throw. *)
Fixpoint forEach {A L : Type} (body : L → A → option L) (arr : list A) (l : L)
  : option L :=
  match arr with
  | [] => Some l
  | x :: rest => l' ← body l x; forEach body rest l'
  end.

(** A sequence of UI events handled one after another, each handler
    running to completion; an exception in a handler ends the run. *)
Fixpoint runEvents {E S : Type} (dispatch : E → S → option S) (evs : list E)
    (st : S) : option S :=
  match evs with
  | [] => Some st
  | ev :: rest => st' ← dispatch ev st; runEvents dispatch rest st'
  end.

Definition markOpen : jsstring :=
  str "<mark class=" ++ [DQUOTE] ++ str "bg-yellow-300 px-1 rounded cursor-pointer"
    ++ [DQUOTE] ++ str ">".

Definition markClose : jsstring := str "</mark>".

(** The replacement string
    [`<mark class="bg-yellow-300 px-1 rounded cursor-pointer">${word}</mark>`]. *)
Definition markTemplate (word : jsstring) : jsstring :=
  markOpen ++ word ++ markClose.

(** Body of the [forEach] of [highlightedText], the same in all three
    components; the local variable is [tempText]. *)
Definition highlightStep (tempText : jsstring) (word : jsstring) : option jsstring :=
  let escapedWord := escapeRegExp word in
  regex ← RegExp escapedWord;
  Some (replace regex (markTemplate word) tempText).

Definition BR : jsstring := str "<br />".

(** ** [src/App.tsx] *)

Module App.

(** The initial text, as UTF-16 code units. *)
Definition DEFAULT_MARKDOWN : jsstring :=
  [12371; 12371; 12395; 12510; 12540; 12463; 12480; 12454; 12531; 12486; 12461;
   12473; 12488; 12434; 36028; 12426; 20184; 12369]%N.

Record State := {
  viewMode : viewModeType;
  markdown : jsstring;
  quizText : jsstring;
  selections : StringSet;
  quizAnswers : list AnswerData
}.

Definition initial : State :=
  {| viewMode := select; markdown := DEFAULT_MARKDOWN; quizText := [];
     selections := []; quizAnswers := [] |}.

Definition setSelections (f : StringSet → StringSet) (st : State) : State :=
  {| viewMode := viewMode st; markdown := markdown st; quizText := quizText st;
     selections := f (selections st); quizAnswers := quizAnswers st |}.

Definition setMarkdown (v : jsstring) (st : State) : State :=
  {| viewMode := viewMode st; markdown := v; quizText := quizText st;
     selections := selections st; quizAnswers := quizAnswers st |}.

Definition setViewMode (m : viewModeType) (st : State) : State :=
  {| viewMode := m; markdown := markdown st; quizText := quizText st;
     selections := selections st; quizAnswers := quizAnswers st |}.

(** [handleSelection]; [selection] is [window.getSelection().toString()]. *)
Definition handleSelection (selection : jsstring) (st : State) : State :=
  match viewMode st with
  | quiz => st
  | select =>
    let selectedText := trim selection in
    match selectedText with
    | [] => st
    | _ :: _ => setSelections (λ prev, Set_add selectedText prev) st
    end
  end.

(** [handlePreviewClick]. *)
Definition handlePreviewClick (e : ClickTarget) (st : State) : State :=
  match viewMode st with
  | select =>
    if jsstring_eqb (tagName e) (str "MARK") then
      let word := innerText e in
      match word with
      | [] => st
      | _ :: _ => setSelections (λ prev, Set_delete word prev) st
      end
    else st
  | quiz => st
  end.

(** The template literal [`**( No.${questionCounter} )**`]. *)
Definition blank (questionCounter : N) : jsstring :=
  str "**( No." ++ toString questionCounter ++ str " )**".

(** Body of the [forEach] of [generateAndSetQuiz]; the locals are
    [newQuizText], [questionCounter] and [newAnswers]. *)
Definition quizStep (l : jsstring * N * list AnswerData) (word : jsstring)
  : option (jsstring * N * list AnswerData) :=
  let '(newQuizText, questionCounter, newAnswers) := l in
  let escapedWord := escapeRegExp word in
  regex ← RegExp escapedWord;
  Some (replace regex (blank questionCounter) newQuizText,
        (questionCounter + 1)%N,
        newAnswers ++ [{| number := questionCounter; word := word |}]).

(** [generateAndSetQuiz]; [None] is an exception escaping the handler. *)
Definition generateAndSetQuiz (st : State) : option State :=
  if (Set_size (selections st) =? 0)%nat then Some st
  else
    let wordsToReplace := Array_from (selections st) in
    '(newQuizText, _, newAnswers) ←
      forEach quizStep wordsToReplace (markdown st, 1%N, []);
    Some {| viewMode := quiz; markdown := markdown st; quizText := newQuizText;
            selections := selections st; quizAnswers := newAnswers |}.

(** [highlightedText], a function of [markdown] and [selections]. *)
Definition highlightedText (st : State) : option jsstring :=
  if (Set_size (selections st) =? 0)%nat then
    Some (replace newlineRe BR (markdown st))
  else
    let wordsToHighlight := Array_from (selections st) in
    tempText ← forEach highlightStep wordsToHighlight (markdown st);
    Some (replace newlineRe BR tempText).

(** [previewContent]. *)
Definition previewContent (st : State) : option jsstring :=
  match viewMode st with
  | quiz => Some (replace newlineRe BR (quizText st))
  | select => highlightedText st
  end.

(** The events wired in the JSX: [onMouseUp] and [onClick] of the preview
    box, [onChange] of the textarea, and the two mode buttons.  The payload
    of [MouseUp] is what [window.getSelection()] gives: [Some] of the text
    of the selection object, or [None] when the call returns [null]. *)
Inductive Event :=
| MouseUp (selection : option jsstring)
| Click (target : ClickTarget)
| Change (value : jsstring)
| SelectModeButton
| QuizModeButton.

(** [None] is an exception escaping the handler.  In [handleSelection] the
    test of the view mode comes first; past it, [toString] is called on
    what [window.getSelection()] returned, which raises a TypeError on
    [null]. *)
Definition dispatch (ev : Event) (st : State) : option State :=
  match ev with
  | MouseUp (Some selection) => Some (handleSelection selection st)
  | MouseUp None =>
    match viewMode st with
    | quiz => Some st
    | select => None
    end
  | Click target => Some (handlePreviewClick target st)
  | Change value => Some (setMarkdown value st)
  | SelectModeButton => Some (setViewMode select st)
  | QuizModeButton => generateAndSetQuiz st
  end.

End App.

(** ** The TypeScript [App] component (unnamed source part) *)

Module AppTs.

(** The initial text (a template literal), as UTF-16 code units. *)
Definition DEFAULT_MARKDOWN : jsstring :=
  [10; 35; 32; 82; 101; 97; 99; 116; 12392; 12399; 65311; 10; 10; 82; 101; 97;
   99; 116; 12399; 12289; 70; 97; 99; 101; 98; 111; 111; 107; 12395; 12424;
   12387; 12390; 38283; 30330; 12373; 12428; 12383; 12289; 12518; 12540; 12470;
   12540; 12452; 12531; 12479; 12540; 12501; 12455; 12540; 12473; 12434; 27083;
   31689; 12377; 12427; 12383; 12417; 12398; 74; 97; 118; 97; 83; 99; 114; 105;
   112; 116; 12521; 12452; 12502; 12521; 12522; 12391; 12377; 12290; 10; 20027;
   12395; 12471; 12531; 12464; 12523; 12506; 12540; 12472; 12450; 12503; 12522;
   12465; 12540; 12471; 12519; 12531; 65288; 83; 80; 65; 65289; 12398; 12499;
   12517; 12540; 37096; 20998; 12434; 25285; 24403; 12375; 12414; 12377; 12290;
   10; 10; 35; 35; 32; 20027; 12394; 29305; 24500; 10; 10; 45; 32; 42; 42;
   12467; 12531; 12509; 12540; 12493; 12531; 12488; 12505; 12540; 12473; 42;
   42; 58; 32; 85; 73; 12434; 29420; 31435; 12375; 12383; 20877; 21033; 29992;
   21487; 33021; 12394; 37096; 21697; 65288; 12467; 12531; 12509; 12540; 12493;
   12531; 12488; 65289; 12395; 20998; 21106; 12375; 12390; 27083; 31689; 12375;
   12414; 12377; 12290; 10; 45; 32; 42; 42; 23459; 35328; 30340; 12394; 85; 73;
   42; 42; 58; 32; 82; 101; 97; 99; 116; 12399; 12289; 12450; 12503; 12522;
   12465; 12540; 12471; 12519; 12531; 12398; 29366; 24907; 12364; 22793; 21270;
   12375; 12383; 12392; 12365; 12395; 85; 73; 12364; 12393; 12398; 12424;
   12358; 12395; 35211; 12360; 12427; 12409; 12365; 12363; 12434; 35352; 36848;
   12377; 12427; 12384; 12369; 12391; 12289; 82; 101; 97; 99; 116; 12364;
   21177; 29575; 30340; 12395; 68; 79; 77; 12434; 26356; 26032; 12375; 12414;
   12377; 12290; 10; 45; 32; 42; 42; 76; 101; 97; 114; 110; 32; 79; 110; 99;
   101; 44; 32; 87; 114; 105; 116; 101; 32; 65; 110; 121; 119; 104; 101; 114;
   101; 42; 42; 58; 32; 82; 101; 97; 99; 116; 12399; 87; 101; 98; 12450; 12503;
   12522; 12465; 12540; 12471; 12519; 12531; 12384; 12369; 12391; 12394; 12367;
   12289; 82; 101; 97; 99; 116; 32; 78; 97; 116; 105; 118; 101; 12434; 20351;
   12360; 12400; 12493; 12452; 12486; 12451; 12502; 12514; 12496; 12452; 12523;
   12450; 12503; 12522; 12465; 12540; 12471; 12519; 12531; 12418; 38283; 30330;
   12391; 12365; 12414; 12377; 12290; 10; 10; 35; 35; 32; 12469; 12531; 12503;
   12523; 12467; 12540; 12489; 10; 10; 96; 96; 96; 106; 97; 118; 97; 115; 99;
   114; 105; 112; 116; 10; 102; 117; 110; 99; 116; 105; 111; 110; 32; 87; 101;
   108; 99; 111; 109; 101; 40; 112; 114; 111; 112; 115; 41; 32; 123; 10; 32;
   32; 114; 101; 116; 117; 114; 110; 32; 60; 104; 49; 62; 72; 101; 108; 108;
   111; 44; 32; 123; 112; 114; 111; 112; 115; 46; 110; 97; 109; 101; 125; 60;
   47; 104; 49; 62; 59; 10; 125; 10; 96; 96; 96; 10; 10; 19978; 12398; 20363;
   12391; 12399; 12289; 96; 87; 101; 108; 99; 111; 109; 101; 96; 12392; 12356;
   12358; 82; 101; 97; 99; 116; 12467; 12531; 12509; 12540; 12493; 12531;
   12488; 12434; 23450; 32681; 12375; 12390; 12356; 12414; 12377; 12290; 10;
   12371; 12398; 25991; 31456; 12434; 20351; 12387; 12390; 12289; 31348; 22475;
   12417; 21839; 38988; 12434; 20316; 25104; 12377; 12427; 12486; 12473; 12488;
   12434; 12375; 12390; 12415; 12390; 12367; 12384; 12373; 12356; 12290; 10]%N.

Record State := {
  displayMode : displayModeType;
  viewMode : viewModeType;
  markdown : jsstring;
  quizText : jsstring;
  selections : StringSet;
  quizAnswers : list AnswerData
}.

Definition initial : State :=
  {| displayMode := separate; viewMode := select; markdown := DEFAULT_MARKDOWN;
     quizText := []; selections := []; quizAnswers := [] |}.

Definition setSelections (f : StringSet → StringSet) (st : State) : State :=
  {| displayMode := displayMode st; viewMode := viewMode st;
     markdown := markdown st; quizText := quizText st;
     selections := f (selections st); quizAnswers := quizAnswers st |}.

Definition setMarkdown (v : jsstring) (st : State) : State :=
  {| displayMode := displayMode st; viewMode := viewMode st; markdown := v;
     quizText := quizText st; selections := selections st;
     quizAnswers := quizAnswers st |}.

Definition setViewMode (m : viewModeType) (st : State) : State :=
  {| displayMode := displayMode st; viewMode := m; markdown := markdown st;
     quizText := quizText st; selections := selections st;
     quizAnswers := quizAnswers st |}.

Definition setDisplayModeType (d : displayModeType) (st : State) : State :=
  {| displayMode := d; viewMode := viewMode st; markdown := markdown st;
     quizText := quizText st; selections := selections st;
     quizAnswers := quizAnswers st |}.

(** [handleSelection]; [selection] is
    [window.getSelection()?.toString()], [None] when there is no
    selection object. *)
Definition handleSelection (selection : option jsstring) (st : State) : State :=
  match viewMode st with
  | quiz => st
  | select =>
    match trim <$> selection with
    | None => st
    | Some [] => st
    | Some selectedText => setSelections (λ prev, Set_add selectedText prev) st
    end
  end.

(** [handlePreviewClick]. *)
Definition handlePreviewClick (e : ClickTarget) (st : State) : State :=
  match viewMode st with
  | select =>
    if jsstring_eqb (tagName e) (str "MARK") then
      let word := innerText e in
      match word with
      | [] => st
      | _ :: _ => setSelections (λ prev, Set_delete word prev) st
      end
    else st
  | quiz => st
  end.

(** The template literal
    [`<span class="question-target"> ( No.${questionCounter} ) </span>`]. *)
Definition blank (questionCounter : N) : jsstring :=
  (str "<span class=" ++ [DQUOTE] ++ str "question-target" ++ [DQUOTE]
     ++ str "> ( No.") ++ toString questionCounter ++ str " ) </span>".

Definition quizStep (l : jsstring * N * list AnswerData) (word : jsstring)
  : option (jsstring * N * list AnswerData) :=
  let '(newQuizText, questionCounter, newAnswers) := l in
  let escapedWord := escapeRegExp word in
  regex ← RegExp escapedWord;
  Some (replace regex (blank questionCounter) newQuizText,
        (questionCounter + 1)%N,
        newAnswers ++ [{| number := questionCounter; word := word |}]).

(** [generateAndSetQuiz]. *)
Definition generateAndSetQuiz (st : State) : option State :=
  if (Set_size (selections st) =? 0)%nat then Some st
  else
    let wordsToReplace := Array_from (selections st) in
    '(newQuizText, _, newAnswers) ←
      forEach quizStep wordsToReplace (markdown st, 1%N, []);
    Some {| displayMode := displayMode st; viewMode := quiz;
            markdown := markdown st; quizText := newQuizText;
            selections := selections st; quizAnswers := newAnswers |}.

(** [highlightedText]; the line-break rewriting is commented out here. *)
Definition highlightedText (st : State) : option jsstring :=
  if (Set_size (selections st) =? 0)%nat then Some (markdown st)
  else
    let wordsToHighlight := Array_from (selections st) in
    tempText ← forEach highlightStep wordsToHighlight (markdown st);
    Some tempText.

(** [previewContent]. *)
Definition previewContent (st : State) : option jsstring :=
  match viewMode st with
  | quiz => Some (quizText st)
  | select => highlightedText st
  end.

(** The events wired in the JSX: [onMouseUp] and [onClick] of the preview
    box, [onChange] of the textarea, the two mode buttons and the layout
    switches.  Here [handleSelection] reads the selection through [?.], so
    that a [null] selection object raises nothing. *)
Inductive Event :=
| MouseUp (selection : option jsstring)
| Click (target : ClickTarget)
| Change (value : jsstring)
| SelectModeButton
| QuizModeButton
| Layout (d : displayModeType).

Definition dispatch (ev : Event) (st : State) : option State :=
  match ev with
  | MouseUp selection => Some (handleSelection selection st)
  | Click target => Some (handlePreviewClick target st)
  | Change value => Some (setMarkdown value st)
  | SelectModeButton => Some (setViewMode select st)
  | QuizModeButton => generateAndSetQuiz st
  | Layout d => Some (setDisplayModeType d st)
  end.

End AppTs.

(** ** [src/Editor.tsx] *)

Module Editor.

Definition DEFAULT_MARKDOWN : jsstring := App.DEFAULT_MARKDOWN.

Record State := {
  markdown : jsstring;
  selections : StringSet
}.

Definition initial : State :=
  {| markdown := DEFAULT_MARKDOWN; selections := [] |}.

Definition setSelections (f : StringSet → StringSet) (st : State) : State :=
  {| markdown := markdown st; selections := f (selections st) |}.

Definition setMarkdown (v : jsstring) (st : State) : State :=
  {| markdown := v; selections := selections st |}.

(** [handleSelection]. *)
Definition handleSelection (selection : jsstring) (st : State) : State :=
  let selectedText := trim selection in
  match selectedText with
  | [] => st
  | _ :: _ => setSelections (λ prev, Set_add selectedText prev) st
  end.

(** [handlePreviewClick]. *)
Definition handlePreviewClick (e : ClickTarget) (st : State) : State :=
  if jsstring_eqb (tagName e) (str "MARK") then
    let word := innerText e in
    match word with
    | [] => st
    | _ :: _ => setSelections (λ prev, Set_delete word prev) st
    end
  else st.

(** The template literal [`({${questionCounter++}})`], with the counter
    read before its increment. *)
Definition blank (questionCounter : N) : jsstring :=
  str "({" ++ toString questionCounter ++ str "})".

(** The replacer callback of [createQuiz]; its state is
    [questionCounter]. *)
Definition replacer (wordsToReplace : list jsstring) (questionCounter : N)
    (matched : jsstring) : N * jsstring :=
  if includes wordsToReplace matched then
    ((questionCounter + 1)%N, blank questionCounter)
  else (questionCounter, matched).

(** [createQuiz]; [None] is an exception escaping the handler. *)
Definition createQuiz (st : State) : option State :=
  if (Set_size (selections st) =? 0)%nat then Some st
  else
    let wordsToReplace := Array_from (selections st) in
    let escapedWords := map escapeRegExp wordsToReplace in
    regex ← RegExp (str "(" ++ join (str "|") escapedWords ++ str ")");
    let '(_, newMarkdown) :=
    replaceWith regex (replacer wordsToReplace) 1%N (markdown st) in
    Some {| markdown := newMarkdown; selections := [] |}.

(** [highlightedText]. *)
Definition highlightedText (st : State) : option jsstring :=
  if (Set_size (selections st) =? 0)%nat then
    Some (replace newlineRe BR (markdown st))
  else
    let wordsToHighlight := Array_from (selections st) in
    tempText ← forEach highlightStep wordsToHighlight (markdown st);
    Some (replace newlineRe BR tempText).

(** The events wired in the JSX: [onMouseUp] and [onClick] of the preview
    box, [onChange] of the textarea, and the create button.  The payload of
    [MouseUp] is what [window.getSelection()] gives: [Some] of the text of
    the selection object, or [None] when the call returns [null]. *)
Inductive Event :=
| MouseUp (selection : option jsstring)
| Click (target : ClickTarget)
| Change (value : jsstring)
| CreateButton.

(** [None] is an exception escaping the handler: [handleSelection] calls
    [toString] on what [window.getSelection()] returned, which raises a
    TypeError on [null]. *)
Definition dispatch (ev : Event) (st : State) : option State :=
  match ev with
  | MouseUp (Some selection) => Some (handleSelection selection st)
  | MouseUp None => None
  | Click target => Some (handlePreviewClick target st)
  | Change value => Some (setMarkdown value st)
  | CreateButton => createQuiz st
  end.

End Editor.

(** ** Specification vocabulary *)

(** [t.startsWith(w)]. *)
Fixpoint startsWith (t w : jsstring) {struct w} : bool :=
  match w, t with
  | [], _ => true
  | c :: w', x :: t' => (x =? c)%N && startsWith t' w'
  | _ :: _, [] => false
  end.

(** The regular expression that spells out [w] code unit by code unit. *)
Definition litRegex (w : jsstring) : regex :=
  foldr (λ c r, RSeq (RChar c) r) REmpty w.

(** The alternation of the literal regular expressions of [ws], in order. *)
Fixpoint altRegex (ws : list jsstring) : regex :=
  match ws with
  | [] => REmpty
  | [w] => litRegex w
  | w :: ws' => RAlt (litRegex w) (altRegex ws')
  end.

(** The first word of [ws] that [t] starts with. *)
Fixpoint firstMatch (ws : list jsstring) (t : jsstring) : option jsstring :=
  match ws with
  | [] => None
  | w :: ws' => if startsWith t w then Some w else firstMatch ws' t
  end.

(** What escaping does to one code unit. *)
Definition escapeUnit (c : cu) : jsstring :=
  if isSyntaxChar c then [BACKSLASH; c] else [c].

(** Replacement by a fixed text, with the position bookkeeping of
    [replace_go] kept. *)
Definition replaceConst (re : regex) (r : jsstring) (before t : jsstring) : jsstring :=
  snd (replace_go re (λ (_ : unit) _ _ _, (tt, r)) tt before 0 t).

(** The text [t] with every occurrence of the word [w], leftmost first and
    without overlap, replaced by the fixed text [r]. *)
Definition blankOut (w r t : jsstring) : jsstring :=
  replaceConst (litRegex w) r [] t.

(** A pattern position where an [Alternative] ends. *)
Definition stops (p : jsstring) : bool :=
  match p with
  | [] => true
  | c :: _ => (c =? BAR)%N || (c =? RPAREN)%N
  end.

(** [t.includes(u)] on strings. *)
Fixpoint strIncludes (t u : jsstring) : bool :=
  startsWith t u ||
  match t with
  | [] => false
  | _ :: t' => strIncludes t' u
  end.

(** One left-to-right pass over a text in which every position where a word
    of [ws] starts is replaced and every other code unit is kept.  The
    replacement [rep n w] may depend on the number [n] of the occurrence
    and on the word [w] found. *)
Inductive Pass (ws : list jsstring) (rep : N → jsstring → jsstring)
  : N → jsstring → jsstring → Prop :=
| Pass_end n : Pass ws rep n [] []
| Pass_hit n w t out :
    w ∈ ws → w ≠ [] →
    Pass ws rep (n + 1) t out →
    Pass ws rep n (w ++ t) (rep n w ++ out)
| Pass_keep n c t out :
    (∀ w, w ∈ ws → ¬ w `prefix_of` (c :: t)) →
    Pass ws rep n t out →
    Pass ws rep n (c :: t) (c :: out).

(** Passes run one after another, one word per pass, each over the text
    the previous pass produced; the [k]-th word is replaced by [rep k w]. *)
Inductive Chain (rep : N → jsstring → jsstring)
  : N → list jsstring → jsstring → jsstring → Prop :=
| Chain_nil k t : Chain rep k [] t t
| Chain_cons k w ws t t1 t2 :
    Pass [w] (λ _ _, rep k w) 0 t t1 →
    Chain rep (k + 1) ws t1 t2 →
    Chain rep k (w :: ws) t t2.

(** The answer key that numbers [ws] in list order from [k] on. *)
Fixpoint numbered (k : N) (ws : list jsstring) : list AnswerData :=
  match ws with
  | [] => []
  | w :: ws' => {| number := k; word := w |} :: numbered (k + 1) ws'
  end.

(** The number a word has when the words of [ws] are numbered in list
    order from [k] on. *)
Fixpoint numberOf (k : N) (ws : list jsstring) (w : jsstring) : N :=
  match ws with
  | [] => k
  | u :: ws' => if jsstring_eqb u w then k else numberOf (k + 1) ws' w
  end.

(** The text left by the [forEach] loops: the words of [ws] replaced one
    after another, the [k]-th by the template [tmpl k w]. *)
Fixpoint seqReplace (tmpl : N → jsstring → jsstring) (k : N) (ws : list jsstring)
    (t : jsstring) : jsstring :=
  match ws with
  | [] => t
  | w :: ws' => seqReplace tmpl (k + 1) ws' (replace (litRegex w) (tmpl k w) t)
  end.

(** The number-carrying label common to the blank markers of both [App]
    components. *)
Definition label (k : N) : jsstring := str "( No." ++ toString k ++ str " )".

(** Putting the word of one answer back wherever its blank marker stands. *)
Definition fillBlank (blank : N → jsstring) (a : AnswerData) (t : jsstring)
  : jsstring :=
  replaceConst (litRegex (blank (number a))) (word a) [] t.

(** Putting the words of [answers] back one answer at a time, the last
    answer of the list first; on the answer key of a quiz that is from the
    highest number down to the lowest. *)
Definition restore (blank : N → jsstring) (answers : list AnswerData) (t : jsstring)
  : jsstring :=
  foldr (fillBlank blank) t answers.

(** Two texts agree when one of them starts with the other. *)
Definition agree (a b : jsstring) : bool := startsWith a b || startsWith b a.

(** An occurrence of [b] can start on a code unit of an occurrence of
    [a]: some non-empty end of [a] agrees with [b]. *)
Fixpoint meets (a b : jsstring) : bool :=
  match a with
  | [] => false
  | _ :: a' => agree a b || meets a' b
  end.

(** An occurrence of [a] and an occurrence of [b] can share a code unit of
    a text. *)
Definition overlap (a b : jsstring) : bool := meets a b || meets b a.

(** No word of [ws] can overlap the marker of a word that stands before it
    in [ws].  The words are numbered from [k] on, and [rep n w] is the
    marker of the word [w] of number [n]. *)
Fixpoint clearOfEarlier (rep : N → jsstring → jsstring) (k : N) (ws : list jsstring)
  : bool :=
  match ws with
  | [] => true
  | w :: ws' =>
    forallb (λ u, negb (overlap u (rep k w))) ws' && clearOfEarlier rep (k + 1) ws'
  end.

(** [Blanked rep P t q]: the text [q] is the text [t] in which some
    occurrences of words stand replaced by their markers, every marker
    whole and in the place of its word, and every other code unit is kept.
    The pairs of a number and a word that may stand replaced are those of
    [P]; the marker of the pair [a] is [rep (number a) (word a)]. *)
Inductive Blanked (rep : N → jsstring → jsstring) (P : AnswerData → Prop)
  : jsstring → jsstring → Prop :=
| Blanked_end : Blanked rep P [] []
| Blanked_keep c t q :
    Blanked rep P t q → Blanked rep P (c :: t) (c :: q)
| Blanked_hit a t q :
    P a → Blanked rep P t q →
    Blanked rep P (word a ++ t) (rep (number a) (word a) ++ q).

Definition isDigit (c : cu) : bool := (48 <=? c)%N && (c <=? 57)%N.

(** The markup in front of the label in the blank marker of the TypeScript
    component. *)
Definition spanOpen : jsstring :=
  str "<span class=" ++ [DQUOTE] ++ str "question-target" ++ [DQUOTE] ++ str "> ".

(** The data-model invariant of the selection set: no empty target. *)
Definition nonemptyTargets (s : StringSet) : Prop := ∀ w, w ∈ s → w ≠ [].

(** A list that stands for a [Set] of targets: no duplicate, no empty
    string. *)
Definition wellFormed (s : StringSet) : Prop := NoDup s ∧ nonemptyTargets s.

(** ** States used in examples *)

(** [App] in select mode with the given text and selections, before any
    quiz was generated. *)
Definition appState (md : jsstring) (sels : StringSet) : App.State :=
  {| App.viewMode := select; App.markdown := md; App.quizText := [];
     App.selections := sels; App.quizAnswers := [] |}.

Definition appTsState (md : jsstring) (sels : StringSet) : AppTs.State :=
  {| AppTs.displayMode := separate; AppTs.viewMode := select; AppTs.markdown := md;
     AppTs.quizText := []; AppTs.selections := sels; AppTs.quizAnswers := [] |}.

Definition editorState (md : jsstring) (sels : StringSet) : Editor.State :=
  {| Editor.markdown := md; Editor.selections := sels |}.

(** ** Vocabulary of the further properties *)

(** Every target is as [trim] leaves it: no white space at either end. *)
Definition trimmedTargets (s : StringSet) : Prop := ∀ w, w ∈ s → trim w = w.

(** One left-to-right pass in which, at every position where a word of
    [ws] starts, the first such word in list order is replaced by the
    marker of the running number [n], and every other code unit is kept. *)
Inductive PassFirst (ws : list jsstring) (rep : N → jsstring)
  : N → jsstring → jsstring → Prop :=
| PassFirst_end n : PassFirst ws rep n [] []
| PassFirst_hit n w t out :
    firstMatch ws (w ++ t) = Some w → w ≠ [] →
    PassFirst ws rep (n + 1) t out →
    PassFirst ws rep n (w ++ t) (rep n ++ out)
| PassFirst_keep n c t out :
    firstMatch ws (c :: t) = None →
    PassFirst ws rep n t out →
    PassFirst ws rep n (c :: t) (c :: out).

(** * Properties *)

(** ** Sanity checks of the embedding on concrete inputs *)

Example escape_a_dot_b : escapeRegExp (str "a.b") = str "a\.b".
Proof. reflexivity. Qed.

Example regexp_escaped :
  RegExp (escapeRegExp (str "a.b"))
  = Some (RSeq (RChar (ch "a")) (RSeq (RChar DOT) (RSeq (RChar (ch "b")) REmpty))).
Proof. reflexivity. Qed.

Example replace_overlap :
  replace (RSeq (RChar (ch "a")) (RSeq (RChar (ch "a")) REmpty)) (str "<$&>")
    (str "aaa baab") = str "<aa>a b<aa>b".
Proof. reflexivity. Qed.

Example replace_empty_pattern : replace REmpty (str "-") (str "abc") = str "-a-b-c-".
Proof. reflexivity. Qed.

Example toString_12 : toString 12 = str "12".
Proof. reflexivity. Qed.

(** ** Reading the regular expressions the components build *)

Lemma startsWith_prefix t w : startsWith t w = true ↔ w `prefix_of` t.
Proof.
  revert t. induction w as [|c w IH]; intros t; simpl.
  - split; [intros _; apply prefix_nil | done].
  - destruct t as [|x t].
    + split; [done | intros [k Hk]; discriminate].
    + rewrite andb_true_iff, IH, N.eqb_eq. split.
      * intros [-> Hp]. by apply prefix_cons.
      * intros [k Hk]. simplify_eq/=. split; [done | by exists k].
Qed.

Lemma startsWith_app w t : startsWith (w ++ t) w = true.
Proof. apply startsWith_prefix. by apply prefix_app_r. Qed.

Lemma startsWith_drop t w : startsWith t w = true → t = w ++ drop (length w) t.
Proof.
  intros [k ->]%startsWith_prefix. by rewrite drop_app_length.
Qed.

Lemma rmatch_lit w s k :
  rmatch (litRegex w) s k = if startsWith s w then k (drop (length w) s) else None.
Proof.
  revert s. induction w as [|c w IH]; intros s; simpl; [done|].
  destruct s as [|x s]; [done|]. simpl.
  destruct (x =? c)%N; simpl; [apply IH | done].
Qed.

Lemma matchAt_lit w s :
  matchAt (litRegex w) s = if startsWith s w then Some (drop (length w) s) else None.
Proof. apply rmatch_lit. Qed.

Lemma rmatch_alt ws s :
  ws ≠ [] →
  rmatch (altRegex ws) s Some = (λ w, drop (length w) s) <$> firstMatch ws s.
Proof.
  induction ws as [|w ws IH]; [done|]. intros _.
  destruct ws as [|w' ws].
  - simpl. rewrite rmatch_lit. by destruct (startsWith s w).
  - change (altRegex (w :: w' :: ws)) with (RAlt (litRegex w) (altRegex (w' :: ws))).
    cbn [rmatch firstMatch]. rewrite rmatch_lit.
    destruct (startsWith s w); [done|]. by apply IH.
Qed.

Lemma firstMatch_Some ws t w :
  firstMatch ws t = Some w → w ∈ ws ∧ startsWith t w = true.
Proof.
  induction ws as [|u ws IH]; simpl; [done|].
  destruct (startsWith t u) eqn:E.
  - intros [= <-]. split; [left | done].
  - intros [??]%IH. split; [by right | done].
Qed.

Lemma firstMatch_None ws t w :
  firstMatch ws t = None → w ∈ ws → startsWith t w = false.
Proof.
  induction ws as [|u ws IH]; simpl; [by intros _ ?%elem_of_nil|].
  destruct (startsWith t u) eqn:E; [done|].
  intros Hn [->|Hin]%elem_of_cons; [done | by apply IH].
Qed.

(** *** Unfolding the scan of [replace_go] *)

Section ReplaceFacts.
Context {St : Type}.
Variable re : regex.
Variable rv : St → jsstring → jsstring → jsstring → St * jsstring.

Lemma replace_go_skip st before u t :
  replace_go re rv st before (length u) (u ++ t)
  = replace_go re rv st (before ++ u) 0 t.
Proof.
  revert before. induction u as [|c u IH]; intros before; simpl.
  - by rewrite app_nil_r.
  - rewrite IH. by rewrite <- app_assoc.
Qed.

Lemma replace_go_hit st before m rest :
  m ≠ [] →
  matchAt re (m ++ rest) = Some rest →
  replace_go re rv st before 0 (m ++ rest)
  = (let '(st1, sub) := rv st m before rest in
     let '(st2, out) := replace_go re rv st1 (before ++ m) 0 rest in
     (st2, sub ++ out)).
Proof.
  intros Hm Hmatch. destruct m as [|c m]; [done|].
  change ((c :: m) ++ rest) with (c :: (m ++ rest)) in *.
  cbn [replace_go]. rewrite Hmatch.
  replace (length (c :: m ++ rest) - length rest) with (S (length m))
    by (simpl; rewrite length_app; lia).
  replace (take (S (length m)) (c :: m ++ rest)) with (c :: m)
    by (simpl; by rewrite take_app_length).
  destruct (rv st (c :: m) before rest) as [st1 sub].
  rewrite replace_go_skip, <- app_assoc. done.
Qed.

Lemma replace_go_miss st before c t :
  matchAt re (c :: t) = None →
  replace_go re rv st before 0 (c :: t)
  = (let '(st2, out) := replace_go re rv st (before ++ [c]) 0 t in
     (st2, c :: out)).
Proof. intros Hmatch. cbn [replace_go]. by rewrite Hmatch. Qed.

Lemma replace_go_end st before :
  matchAt re [] = None → replace_go re rv st before 0 [] = (st, []).
Proof. intros Hmatch. cbn [replace_go]. by rewrite Hmatch. Qed.

(** A replacer that ignores the surrounding text makes the scan
    independent of [before]. *)
Lemma replace_go_before st b1 b2 skip t :
  (∀ s m b b' a, rv s m b a = rv s m b' a) →
  replace_go re rv st b1 skip t = replace_go re rv st b2 skip t.
Proof.
  intros Hrv. revert st b1 b2 skip.
  induction t as [|c t IH]; intros st b1 b2 skip; simpl.
  - destruct skip; [|done]. destruct (matchAt re []); [apply Hrv | done].
  - destruct skip as [|k]; [|apply IH].
    destruct (matchAt re (c :: t)) as [rest|].
    + rewrite (Hrv _ _ b1 b2).
      destruct (rv st _ b2 rest) as [st1 sub].
      destruct (_ - length rest);
        by rewrite (IH _ (b1 ++ [c]) (b2 ++ [c])).
    + by rewrite (IH _ (b1 ++ [c]) (b2 ++ [c])).
Qed.
End ReplaceFacts.

(** Two replacers that agree on every match give the same result. *)
Lemma replace_go_ext {St} re
    (rv1 rv2 : St → jsstring → jsstring → jsstring → St * jsstring)
    st before skip t :
  (∀ s m b a, rv1 s m b a = rv2 s m b a) →
  replace_go re rv1 st before skip t = replace_go re rv2 st before skip t.
Proof.
  intros Hrv. revert st before skip.
  induction t as [|c t IH]; intros st before skip; simpl.
  - destruct skip; [|done]. destruct (matchAt re []); [apply Hrv | done].
  - destruct skip as [|k]; [|apply IH].
    destruct (matchAt re (c :: t)) as [rest|].
    + rewrite Hrv. destruct (rv2 st _ before rest) as [st1 sub].
      destruct (_ - length rest); by rewrite IH.
    + by rewrite IH.
Qed.

(** *** Replacement templates without [$] *)

Lemma cu_in_app c a b : cu_in c (a ++ b) = cu_in c a || cu_in c b.
Proof. apply existsb_app. Qed.

Lemma getSubstitution_plain tmpl m b a :
  cu_in DOLLAR tmpl = false → getSubstitution tmpl m b a = tmpl.
Proof.
  induction tmpl as [|c tmpl IH]; [done|].
  unfold cu_in. cbn [existsb]. intros [H1 H2]%orb_false_iff.
  cbn [getSubstitution]. rewrite N.eqb_sym, H1. f_equal. by apply IH.
Qed.

Lemma replace_plain re tmpl s :
  cu_in DOLLAR tmpl = false → replace re tmpl s = replaceConst re tmpl [] s.
Proof.
  intros Hd. unfold replace, replaceConst. f_equal.
  apply replace_go_ext. intros. by rewrite getSubstitution_plain.
Qed.

Lemma replaceConst_before re r b1 b2 t :
  replaceConst re r b1 t = replaceConst re r b2 t.
Proof. unfold replaceConst. f_equal. by apply replace_go_before. Qed.

(** Replacing every occurrence of a non-empty literal by a fixed text:
    the three equations of the scan. *)
Section LiteralReplace.
Variables w r : jsstring.
Hypothesis w_nonempty : w ≠ [].

Lemma replaceConst_nil b : replaceConst (litRegex w) r b [] = [].
Proof.
  unfold replaceConst. rewrite replace_go_end; [done|].
  rewrite matchAt_lit. by destruct w.
Qed.

Lemma replaceConst_hit b t :
  replaceConst (litRegex w) r b (w ++ t) = r ++ replaceConst (litRegex w) r b t.
Proof.
  rewrite (replaceConst_before _ _ b (b ++ w) t).
  unfold replaceConst. rewrite replace_go_hit; [|done|].
  - by destruct (replace_go _ _ tt (b ++ w) 0 t) as [[] out].
  - by rewrite matchAt_lit, startsWith_app, drop_app_length.
Qed.

Lemma replaceConst_miss b c t :
  startsWith (c :: t) w = false →
  replaceConst (litRegex w) r b (c :: t) = c :: replaceConst (litRegex w) r b t.
Proof.
  intros Hs. rewrite (replaceConst_before _ _ b (b ++ [c]) t).
  unfold replaceConst. rewrite replace_go_miss.
  - by destruct (replace_go _ _ tt (b ++ [c]) 0 t) as [[] out].
  - by rewrite matchAt_lit, Hs.
Qed.
End LiteralReplace.

Lemma blankOut_nil w r : w ≠ [] → blankOut w r [] = [].
Proof. intros Hw. by apply replaceConst_nil. Qed.

Lemma blankOut_hit w r t : w ≠ [] → blankOut w r (w ++ t) = r ++ blankOut w r t.
Proof. intros Hw. by apply replaceConst_hit. Qed.

Lemma blankOut_miss w r c t :
  w ≠ [] → startsWith (c :: t) w = false →
  blankOut w r (c :: t) = c :: blankOut w r t.
Proof. intros Hw Hs. by apply replaceConst_miss. Qed.

Lemma replace_blankOut w tmpl t :
  cu_in DOLLAR tmpl = false → replace (litRegex w) tmpl t = blankOut w tmpl t.
Proof. apply replace_plain. Qed.

(** *** Escaping and parsing *)

Lemma cu_in_ne c x cs : cu_in c cs = false → cu_in x cs = true → (c =? x)%N = false.
Proof.
  intros Hc Hx. destruct (c =? x)%N eqn:E; [|done].
  apply N.eqb_eq in E. congruence.
Qed.

Lemma metaCharClass_match c t :
  matchAt metaCharClass (c :: t) = if isSyntaxChar c then Some t else None.
Proof. reflexivity. Qed.

Lemma escapeRegExp_go before w :
  snd (replace_go metaCharClass
         (λ (_ : unit) m b a, (tt, getSubstitution (str "\$&") m b a)) tt before 0 w)
  = flat_map escapeUnit w.
Proof.
  revert before. induction w as [|c w IH]; intros before; [done|].
  cbn [flat_map]. unfold escapeUnit at 1.
  destruct (isSyntaxChar c) eqn:E.
  - change (c :: w) with ([c] ++ w).
    rewrite replace_go_hit;
      [|done|by cbn [app]; rewrite metaCharClass_match, E].
    specialize (IH (before ++ [c])).
    destruct (replace_go _ _ tt (before ++ [c]) 0 w) as [[] out].
    simpl in IH. subst out. reflexivity.
  - rewrite replace_go_miss; [|by rewrite metaCharClass_match, E].
    specialize (IH (before ++ [c])).
    destruct (replace_go _ _ tt (before ++ [c]) 0 w) as [[] out].
    simpl in IH. subst out. reflexivity.
Qed.

(** Escaping puts a backslash in front of every syntax character and
    leaves the other code units alone. *)
Lemma escapeRegExp_flat_map w : escapeRegExp w = flat_map escapeUnit w.
Proof. apply escapeRegExp_go. Qed.

Lemma length_escapeRegExp w : length w ≤ length (escapeRegExp w).
Proof.
  rewrite escapeRegExp_flat_map. induction w as [|c w IH]; simpl; [lia|].
  rewrite length_app.
  assert (1 ≤ length (escapeUnit c))
    by (unfold escapeUnit; destruct (isSyntaxChar c); simpl; lia).
  lia.
Qed.

Lemma parseAlternative_cons f c rest :
  parseAlternative (S f) (c :: rest) =
    if (c =? BAR)%N || (c =? RPAREN)%N then Some (REmpty, c :: rest)
    else if (c =? BACKSLASH)%N then
      match rest with
      | d :: rest' =>
        if isSyntaxChar d then
          '(r, q) ← parseAlternative f rest'; Some (RSeq (RChar d) r, q)
        else None
      | [] => None
      end
    else if (c =? DOT)%N then
      '(r, q) ← parseAlternative f rest; Some (RSeq RAny r, q)
    else if (c =? LPAREN)%N then
      '(d, q1) ← parseDisjunction f rest;
      match q1 with
      | c' :: q2 =>
        if (c' =? RPAREN)%N then
          '(r, q3) ← parseAlternative f q2; Some (RSeq (RGroup d) r, q3)
        else None
      | [] => None
      end
    else if isSyntaxChar c then None
    else '(r, q) ← parseAlternative f rest; Some (RSeq (RChar c) r, q).
Proof. reflexivity. Qed.

Lemma parseDisjunction_S f p :
  parseDisjunction (S f) p =
    '(a, q1) ← parseAlternative f p;
    match q1 with
    | c :: q2 =>
      if (c =? BAR)%N then
        '(d, q3) ← parseDisjunction f q2; Some (RAlt a d, q3)
      else Some (a, q1)
    | [] => Some (a, q1)
    end.
Proof. reflexivity. Qed.

Lemma parseAlternative_stop f p :
  stops p = true → parseAlternative (S f) p = Some (REmpty, p).
Proof.
  destruct p as [|c rest]; [done|]. intros Hs.
  rewrite parseAlternative_cons. simpl in Hs. by rewrite Hs.
Qed.

(** An escaped word, read up to the end of its alternative, parses to the
    regular expression that spells the word. *)
Lemma parseAlternative_escaped w tail f :
  stops tail = true → length w < f →
  parseAlternative f (escapeRegExp w ++ tail) = Some (litRegex w, tail).
Proof.
  rewrite escapeRegExp_flat_map. intros Hs. revert f.
  induction w as [|c w IH]; intros f Hf.
  - destruct f as [|f]; [simpl in Hf; lia|]. by apply parseAlternative_stop.
  - destruct f as [|f]; [simpl in Hf; lia|]. simpl in Hf.
    cbn [flat_map]. unfold escapeUnit at 1.
    destruct (isSyntaxChar c) eqn:E.
    + change (([BACKSLASH; c] ++ flat_map escapeUnit w) ++ tail)
        with (BACKSLASH :: c :: (flat_map escapeUnit w ++ tail)).
      rewrite parseAlternative_cons.
      change ((BACKSLASH =? BAR)%N || (BACKSLASH =? RPAREN)%N) with false.
      change (BACKSLASH =? BACKSLASH)%N with true. cbv iota.
      rewrite E, IH by lia. reflexivity.
    + change (([c] ++ flat_map escapeUnit w) ++ tail)
        with (c :: (flat_map escapeUnit w ++ tail)).
      rewrite parseAlternative_cons.
      rewrite (cu_in_ne c BAR syntaxChars), (cu_in_ne c RPAREN syntaxChars),
        (cu_in_ne c BACKSLASH syntaxChars), (cu_in_ne c DOT syntaxChars),
        (cu_in_ne c LPAREN syntaxChars) by done.
      cbn [orb]. rewrite E, IH by lia. reflexivity.
Qed.

(** [new RegExp] of an escaped word never throws and yields the literal
    regular expression of the word. *)
Lemma RegExp_escapeRegExp w : RegExp (escapeRegExp w) = Some (litRegex w).
Proof.
  unfold RegExp. pose proof (length_escapeRegExp w) as Hlen.
  replace (2 * length (escapeRegExp w) + 2)
    with (S (2 * length (escapeRegExp w) + 1)) by lia.
  rewrite parseDisjunction_S.
  rewrite <- (app_nil_r (escapeRegExp w)) at 2.
  rewrite parseAlternative_escaped; [done | done | lia].
Qed.

(** The alternatives of [createQuiz], read up to the closing parenthesis. *)
Lemma parseDisjunction_escaped ws tail f :
  ws ≠ [] →
  length (join (str "|") (map escapeRegExp ws)) + 2 ≤ f →
  parseDisjunction f (join (str "|") (map escapeRegExp ws) ++ RPAREN :: tail)
  = Some (altRegex ws, RPAREN :: tail).
Proof.
  revert f. induction ws as [|w ws IH]; [done|]. intros f _ Hf.
  destruct f as [|f]; [lia|]. rewrite parseDisjunction_S.
  pose proof (length_escapeRegExp w) as Hlen.
  destruct ws as [|w' ws].
  - cbn [map join] in *. rewrite parseAlternative_escaped; [done | done | lia].
  - change (join (str "|") (map escapeRegExp (w :: w' :: ws)))
      with (escapeRegExp w ++ str "|" ++ join (str "|") (map escapeRegExp (w' :: ws))) in *.
    rewrite !length_app in Hf. simpl (length (str "|")) in Hf.
    rewrite <- !app_assoc.
    rewrite parseAlternative_escaped; [|done|lia].
    change (str "|" ++ ?x) with (BAR :: x).
    cbn [mbind option_bind]. change (BAR =? BAR)%N with true. cbv iota.
    rewrite IH; [done | done | lia].
Qed.

Lemma RegExp_createQuiz ws :
  ws ≠ [] →
  RegExp (str "(" ++ join (str "|") (map escapeRegExp ws) ++ str ")")
  = Some (RSeq (RGroup (altRegex ws)) REmpty).
Proof.
  intros Hws. unfold RegExp.
  set (P := join (str "|") (map escapeRegExp ws)).
  change (str "(" ++ P ++ str ")") with (LPAREN :: (P ++ [RPAREN])).
  replace (2 * length (LPAREN :: P ++ [RPAREN]) + 2)
    with (S (S (2 * length P + 4))) by (simpl; rewrite length_app; simpl; lia).
  rewrite parseDisjunction_S, parseAlternative_cons.
  change ((LPAREN =? BAR)%N || (LPAREN =? RPAREN)%N) with false.
  change (LPAREN =? BACKSLASH)%N with false.
  change (LPAREN =? DOT)%N with false.
  change (LPAREN =? LPAREN)%N with true. cbv iota.
  unfold P. rewrite parseDisjunction_escaped; [|done|lia].
  cbn [mbind option_bind]. change (RPAREN =? RPAREN)%N with true. cbv iota.
  destruct (2 * length (join (str "|") (map escapeRegExp ws)) + 4) eqn:E; [lia|].
  reflexivity.
Qed.

(** *** Induction along a scan *)

Lemma firstMatch_split ws t w :
  firstMatch ws t = Some w → t = w ++ drop (length w) t.
Proof. intros [_ H]%firstMatch_Some. by apply startsWith_drop. Qed.

Lemma scan_ind (ws : list jsstring) (P : jsstring → Prop) :
  (∀ w, w ∈ ws → w ≠ []) →
  P [] →
  (∀ w t, firstMatch ws (w ++ t) = Some w → P t → P (w ++ t)) →
  (∀ c t, firstMatch ws (c :: t) = None → P t → P (c :: t)) →
  ∀ t, P t.
Proof.
  intros Hne Hnil Hhit Hmiss t.
  induction (Nat.lt_wf_0_projected (@length cu) t) as [t _ IH].
  destruct t as [|c t]; [done|].
  destruct (firstMatch ws (c :: t)) as [w|] eqn:E.
  - pose proof (firstMatch_Some _ _ _ E) as [Hin Hs].
    pose proof (firstMatch_split _ _ _ E) as Ht.
    rewrite Ht in E |- *. apply Hhit; [done|]. apply IH.
    specialize (Hne w Hin). rewrite Ht at 2. rewrite length_app.
    destruct w; [done | simpl; lia].
  - apply Hmiss; [done|]. apply IH. simpl. lia.
Qed.

Lemma scan1_ind (w : jsstring) (P : jsstring → Prop) :
  w ≠ [] →
  P [] →
  (∀ t, P t → P (w ++ t)) →
  (∀ c t, startsWith (c :: t) w = false → P t → P (c :: t)) →
  ∀ t, P t.
Proof.
  intros Hne Hnil Hhit Hmiss. apply (scan_ind [w]); [|done| |].
  - by intros u ->%list_elem_of_singleton.
  - intros u t Hf Ht. apply firstMatch_Some in Hf as [->%list_elem_of_singleton _].
    by apply Hhit.
  - intros c t Hf Ht. apply Hmiss; [|done].
    simpl in Hf. by destruct (startsWith (c :: t) w).
Qed.

(** ** The selection store *)

Lemma Set_add_idem w (s : StringSet) : Set_add w (Set_add w s) = Set_add w s.
Proof.
  unfold Set_add. destruct (decide (w ∈ s)) as [Hin|Hnin].
  - by rewrite decide_True.
  - rewrite decide_True; [done|]. apply elem_of_app. right. by left.
Qed.

Lemma Set_delete_gone w (s : StringSet) : w ∉ Set_delete w s.
Proof. unfold Set_delete. by intros [H _]%list_elem_of_filter. Qed.

Lemma Set_delete_other w u (s : StringSet) :
  u ≠ w → u ∈ Set_delete w s ↔ u ∈ s.
Proof. intros Hne. unfold Set_delete. rewrite list_elem_of_filter. tauto. Qed.

Lemma Set_add_elem w u (s : StringSet) : u ∈ Set_add w s ↔ u = w ∨ u ∈ s.
Proof.
  unfold Set_add. destruct (decide (w ∈ s)) as [Hin|Hnin].
  - split; [by right | by intros [->|?]].
  - rewrite elem_of_app, list_elem_of_singleton. tauto.
Qed.

Lemma Set_add_NoDup w (s : StringSet) : NoDup s → NoDup (Set_add w s).
Proof.
  intros Hs. unfold Set_add. destruct (decide (w ∈ s)) as [Hin|Hnin]; [done|].
  apply NoDup_app. split_and!; [done| |apply NoDup_singleton].
  intros x Hx ->%list_elem_of_singleton. done.
Qed.

Lemma trimStart_whitespace s :
  Forall (λ c, isWhiteSpace c = true) s → trimStart s = [].
Proof. induction 1 as [|c s Hc _ IH]; simpl; [done | by rewrite Hc]. Qed.

Lemma trim_whitespace s : Forall (λ c, isWhiteSpace c = true) s → trim s = [].
Proof. intros Hs. unfold trim. by rewrite trimStart_whitespace. Qed.

(** ** The loops of the components *)

Lemma App_quizStep_eq t k acc w :
  App.quizStep (t, k, acc) w
  = Some (replace (litRegex w) (App.blank k) t, (k + 1)%N,
          acc ++ [{| number := k; word := w |}]).
Proof. unfold App.quizStep. by rewrite RegExp_escapeRegExp. Qed.

Lemma AppTs_quizStep_eq t k acc w :
  AppTs.quizStep (t, k, acc) w
  = Some (replace (litRegex w) (AppTs.blank k) t, (k + 1)%N,
          acc ++ [{| number := k; word := w |}]).
Proof. unfold AppTs.quizStep. by rewrite RegExp_escapeRegExp. Qed.

Lemma highlightStep_eq t w :
  highlightStep t w = Some (replace (litRegex w) (markTemplate w) t).
Proof. unfold highlightStep. by rewrite RegExp_escapeRegExp. Qed.

Lemma forEach_App_quizStep ws t k acc :
  forEach App.quizStep ws (t, k, acc)
  = Some (seqReplace (λ n _, App.blank n) k ws t,
          (k + N.of_nat (length ws))%N, acc ++ numbered k ws).
Proof.
  revert t k acc. induction ws as [|w ws IH]; intros t k acc.
  - simpl. by rewrite N.add_0_r, app_nil_r.
  - cbn [forEach]. rewrite App_quizStep_eq.
    cbn [mbind option_bind]. rewrite IH. cbn [seqReplace numbered length].
    rewrite <- app_assoc. do 3 f_equal. lia.
Qed.

Lemma forEach_AppTs_quizStep ws t k acc :
  forEach AppTs.quizStep ws (t, k, acc)
  = Some (seqReplace (λ n _, AppTs.blank n) k ws t,
          (k + N.of_nat (length ws))%N, acc ++ numbered k ws).
Proof.
  revert t k acc. induction ws as [|w ws IH]; intros t k acc.
  - simpl. by rewrite N.add_0_r, app_nil_r.
  - cbn [forEach]. rewrite AppTs_quizStep_eq.
    cbn [mbind option_bind]. rewrite IH. cbn [seqReplace numbered length].
    rewrite <- app_assoc. do 3 f_equal. lia.
Qed.

Lemma forEach_highlightStep ws t k :
  forEach highlightStep ws t = Some (seqReplace (λ _ w, markTemplate w) k ws t).
Proof.
  revert t k. induction ws as [|w ws IH]; intros t k; [done|].
  cbn [forEach]. rewrite highlightStep_eq.
  cbn [mbind option_bind]. by rewrite (IH _ (k + 1)%N).
Qed.

Lemma size_nonzero (s : StringSet) : s ≠ [] → (Set_size s =? 0) = false.
Proof. by destruct s. Qed.

(** What [generateAndSetQuiz] computes on a non-empty selection. *)
Lemma App_generate_eq st :
  App.selections st ≠ [] →
  App.generateAndSetQuiz st
  = Some {| App.viewMode := quiz; App.markdown := App.markdown st;
            App.quizText := seqReplace (λ n _, App.blank n) 1 (App.selections st)
                              (App.markdown st);
            App.selections := App.selections st;
            App.quizAnswers := numbered 1 (App.selections st) |}.
Proof.
  intros Hne. unfold App.generateAndSetQuiz, Array_from.
  by rewrite size_nonzero, forEach_App_quizStep.
Qed.

Lemma AppTs_generate_eq st :
  AppTs.selections st ≠ [] →
  AppTs.generateAndSetQuiz st
  = Some {| AppTs.displayMode := AppTs.displayMode st; AppTs.viewMode := quiz;
            AppTs.markdown := AppTs.markdown st;
            AppTs.quizText := seqReplace (λ n _, AppTs.blank n) 1 (AppTs.selections st)
                                (AppTs.markdown st);
            AppTs.selections := AppTs.selections st;
            AppTs.quizAnswers := numbered 1 (AppTs.selections st) |}.
Proof.
  intros Hne. unfold AppTs.generateAndSetQuiz, Array_from.
  by rewrite size_nonzero, forEach_AppTs_quizStep.
Qed.

Lemma numbered_imap k ws :
  numbered k ws = imap (λ i w, {| number := k + N.of_nat i; word := w |}) ws.
Proof.
  revert k. induction ws as [|w ws IH]; intros k; [done|].
  cbn [numbered imap]. rewrite N.add_0_r. f_equal.
  rewrite IH. apply imap_ext. intros i x _. simpl. f_equal. lia.
Qed.

(** ** Decimal numerals *)

Lemma str_inj s1 s2 : str s1 = str s2 → s1 = s2.
Proof.
  revert s2. induction s1 as [|a s1 IH]; intros [|b s2]; simpl; try done.
  intros [= Hab Hs]. f_equal; [|by apply IH].
  by rewrite <- (ascii_N_embedding a), <- (ascii_N_embedding b), Hab.
Qed.

Lemma string_of_uint_digits d :
  Forall (λ c, isDigit c = true) (str (NilEmpty.string_of_uint d)).
Proof. induction d; simpl; by constructor. Qed.

Lemma toString_digits k : Forall (λ c, isDigit c = true) (toString k).
Proof.
  unfold toString, NilZero.string_of_uint.
  destruct (N.to_uint k); try apply (string_of_uint_digits (_ _)).
  by repeat constructor.
Qed.

Lemma to_uint_nonnil k : N.to_uint k ≠ Nil.
Proof.
  destruct k as [|p]; [done|]. apply DecimalPos.Unsigned.to_uint_nonnil.
Qed.

Lemma toString_inj j k : toString j = toString k → j = k.
Proof.
  unfold toString. intros H%str_inj.
  apply DecimalN.Unsigned.to_uint_inj.
  pose proof (NilZero.usu _ (to_uint_nonnil j)) as Hj.
  pose proof (NilZero.usu _ (to_uint_nonnil k)) as Hk.
  rewrite H in Hj. congruence.
Qed.

Lemma cu_in_digits c ds :
  Forall (λ x, isDigit x = true) ds → isDigit c = false → cu_in c ds = false.
Proof.
  intros Hds Hc. induction Hds as [|x ds Hx _ IH]; [done|].
  unfold cu_in in *. cbn [existsb]. rewrite IH, orb_false_r.
  destruct (c =? x)%N eqn:E; [|done]. apply N.eqb_eq in E. congruence.
Qed.

Lemma cu_in_toString c k : isDigit c = false → cu_in c (toString k) = false.
Proof. apply cu_in_digits, toString_digits. Qed.

(** The blank markers carry no [$], so they are inserted as they are. *)
Lemma App_blank_plain k : cu_in DOLLAR (App.blank k) = false.
Proof. unfold App.blank. by rewrite !cu_in_app, cu_in_toString. Qed.

Lemma AppTs_blank_plain k : cu_in DOLLAR (AppTs.blank k) = false.
Proof. unfold AppTs.blank. by rewrite !cu_in_app, cu_in_toString. Qed.

Lemma markTemplate_plain w :
  cu_in DOLLAR w = false → cu_in DOLLAR (markTemplate w) = false.
Proof. intros Hw. unfold markTemplate. by rewrite !cu_in_app, Hw. Qed.

(** ** One pass, and passes in a chain *)

(** Replacing one word by a fixed text is a pass. *)
Lemma Pass_literal w r :
  w ≠ [] → ∀ t n, Pass [w] (λ _ _, r) n t (blankOut w r t).
Proof.
  intros Hw. apply (scan1_ind w (λ t, ∀ n, Pass [w] (λ _ _, r) n t _)); [done|..].
  - intros n. rewrite blankOut_nil by done. constructor.
  - intros t IH n. rewrite blankOut_hit by done.
    apply (Pass_hit [w] (λ _ _, r) n w); [by left | done | apply IH].
  - intros c t Hs IH n. rewrite blankOut_miss by done.
    apply Pass_keep; [|apply IH].
    intros u ->%list_elem_of_singleton Hp%startsWith_prefix. congruence.
Qed.

Lemma Chain_seqReplace tmpl ws :
  (∀ w, w ∈ ws → w ≠ []) →
  (∀ k w, w ∈ ws → cu_in DOLLAR (tmpl k w) = false) →
  ∀ k t, Chain tmpl k ws t (seqReplace tmpl k ws t).
Proof.
  induction ws as [|w ws IH]; intros Hne Hplain k t; [constructor|].
  cbn [seqReplace].
  apply (Chain_cons _ k w ws t (replace (litRegex w) (tmpl k w) t)).
  - rewrite replace_blankOut by (apply Hplain; by left).
    apply Pass_literal, Hne. by left.
  - apply IH; intros; [apply Hne | apply Hplain]; by right.
Qed.

Lemma includes_elem ws w : includes ws w = true ↔ w ∈ ws.
Proof.
  unfold includes, jsstring_eqb. rewrite existsb_exists. split.
  - intros (x & Hx%list_elem_of_In & Heq%bool_decide_eq_true). by subst.
  - intros Hw. exists w.
    split; [by apply list_elem_of_In | by apply bool_decide_eq_true].
Qed.

Lemma firstMatch_nil ws : (∀ w, w ∈ ws → w ≠ []) → firstMatch ws [] = None.
Proof.
  induction ws as [|w ws IH]; intros Hne; [done|]. simpl.
  destruct w as [|c w]; [by specialize (Hne [] ltac:(by left))|].
  simpl. apply IH. intros; apply Hne; by right.
Qed.

Lemma matchAt_createQuiz ws t :
  ws ≠ [] →
  matchAt (RSeq (RGroup (altRegex ws)) REmpty) t
  = (λ w, drop (length w) t) <$> firstMatch ws t.
Proof. intros Hws. rewrite <- rmatch_alt by done. reflexivity. Qed.

(** The single pass of [createQuiz]: the counter numbers the replaced
    occurrences from left to right. *)
Lemma Pass_createQuiz ws :
  ws ≠ [] → (∀ w, w ∈ ws → w ≠ []) →
  ∀ t n b,
    Pass ws (λ n _, Editor.blank n) n t
      (snd (replace_go (RSeq (RGroup (altRegex ws)) REmpty)
              (λ st m _ _, Editor.replacer ws st m) n b 0 t)).
Proof.
  intros Hws Hne.
  apply (scan_ind ws (λ t, ∀ n b, Pass ws _ n t _)); [done|..].
  - intros n b. rewrite replace_go_end; [constructor|].
    by rewrite matchAt_createQuiz, firstMatch_nil.
  - intros w t Hf IH n b.
    pose proof (firstMatch_Some _ _ _ Hf) as [Hin _].
    rewrite replace_go_hit.
    + unfold Editor.replacer at 1.
      rewrite (proj2 (includes_elem ws w) Hin).
      specialize (IH (n + 1)%N (b ++ w)).
      destruct (replace_go _ _ (n + 1)%N (b ++ w) 0 t) as [n' out].
      apply (Pass_hit ws (λ n _, Editor.blank n) n w); [done | by apply Hne | done].
    + by apply Hne.
    + rewrite matchAt_createQuiz, Hf by done.
      cbn [fmap option_fmap option_map]. by rewrite drop_app_length.
  - intros c t Hf IH n b. rewrite replace_go_miss.
    + specialize (IH n (b ++ [c])).
      destruct (replace_go _ _ n (b ++ [c]) 0 t) as [n' out].
      apply Pass_keep; [|done].
      intros u Hu Hp%startsWith_prefix.
      by rewrite (firstMatch_None _ _ _ Hf Hu) in Hp.
    + by rewrite matchAt_createQuiz, Hf.
Qed.

(** ** Occurrences of one text in another *)

Lemma strIncludes_cons c t u :
  strIncludes (c :: t) u = startsWith (c :: t) u || strIncludes t u.
Proof. reflexivity. Qed.

Lemma strIncludes_head t u : strIncludes t u = false → startsWith t u = false.
Proof. destruct t; simpl; by intros [? _]%orb_false_iff. Qed.

Lemma strIncludes_tail c t u :
  strIncludes (c :: t) u = false → strIncludes t u = false.
Proof. rewrite strIncludes_cons. by intros [_ ?]%orb_false_iff. Qed.

Lemma strIncludes_app_r a t u :
  strIncludes (a ++ t) u = false → strIncludes t u = false.
Proof. induction a as [|c a IH]; [done|]. intros H%strIncludes_tail. by apply IH. Qed.

Lemma strIncludes_app_false a t u :
  (∀ q, q < length a → startsWith (drop q a ++ t) u = false) →
  strIncludes t u = false →
  strIncludes (a ++ t) u = false.
Proof.
  intros Ha Ht. induction a as [|c a IH]; [done|].
  change ((c :: a) ++ t) with (c :: (a ++ t)). rewrite strIncludes_cons.
  apply orb_false_iff. split.
  - apply (Ha 0). simpl. lia.
  - apply IH. intros q Hq. apply (Ha (S q)). simpl. lia.
Qed.

Lemma startsWith_app_drop t a b :
  startsWith t (a ++ b) = true → startsWith (drop (length a) t) b = true.
Proof.
  intros [k ->]%startsWith_prefix. rewrite <- app_assoc, drop_app_length.
  apply startsWith_app.
Qed.

Lemma startsWith_head_absent c u q t v :
  cu_in c u = false → q < length u →
  startsWith (drop q u ++ t) (c :: v) = false.
Proof.
  revert q. induction u as [|x u IH]; intros q Hc Hq; [simpl in Hq; lia|].
  unfold cu_in in Hc. cbn [existsb] in Hc. apply orb_false_iff in Hc as [Hx Hu].
  destruct q as [|q].
  - simpl. by rewrite N.eqb_sym, Hx.
  - simpl. apply IH; [done | simpl in Hq; lia].
Qed.

(** Two runs of digits, each closed by a code unit that is not a digit,
    agree as soon as one text starts with the other. *)
Lemma digits_closed d1 d2 c1 c2 t1 t2 :
  Forall (λ x, isDigit x = true) d1 → Forall (λ x, isDigit x = true) d2 →
  isDigit c1 = false → isDigit c2 = false →
  startsWith (d1 ++ c1 :: t1) (d2 ++ c2 :: t2) = true → d1 = d2.
Proof.
  intros Hd1. revert d2. induction Hd1 as [|a d1 Ha _ IH]; intros d2 Hd2 Hc1 Hc2.
  - destruct Hd2 as [|x d2 Hx _]; [done|]. simpl.
    intros [->%N.eqb_eq _]%andb_true_iff. congruence.
  - destruct Hd2 as [|x d2 Hx Hd2]; simpl.
    + intros [->%N.eqb_eq _]%andb_true_iff. congruence.
    + intros [->%N.eqb_eq Hs]%andb_true_iff. f_equal. by apply IH.
Qed.

Lemma label_mismatch j k t : j ≠ k → startsWith (label k ++ t) (label j) = false.
Proof.
  intros Hjk. destruct (startsWith (label k ++ t) (label j)) eqn:E; [|done].
  exfalso. apply Hjk. symmetry. apply toString_inj.
  unfold label in E. rewrite <- !app_assoc in E.
  apply (startsWith_app_drop _ (str "( No.")) in E.
  rewrite drop_app_length in E.
  by apply (digits_closed _ _ 32%N 32%N (str ")" ++ t) (str ")")) in E;
    [| apply toString_digits..| |].
Qed.

Lemma label_head k : label k = LPAREN :: (str " No." ++ toString k ++ str " )").
Proof. reflexivity. Qed.

Lemma cu_in_label c k :
  cu_in c (str "( No. )") = false → isDigit c = false → cu_in c (label k) = false.
Proof.
  intros Hc Hd. unfold label. rewrite !cu_in_app, cu_in_toString by done.
  unfold cu_in in *. cbn [existsb str] in *.
  repeat (apply orb_false_iff in Hc as [? Hc]).
  repeat (apply orb_false_iff; split); done.
Qed.

(** ** Undoing the blanks *)

(** The blank markers of both [App] components have the shape
    [pre ++ label k ++ post]: the label is framed by markup that starts
    with a code unit foreign to labels and that holds no opening
    parenthesis. *)
Section Restore.
Variable blank : N → jsstring.
Variables (pre post pre' : jsstring) (h : cu).
Hypothesis blank_eq : ∀ k, blank k = pre ++ label k ++ post.
Hypothesis pre_eq : pre = h :: pre'.
Hypothesis h_foreign : ∀ k, cu_in h (label k) = false.
Hypothesis lparen_pre : cu_in LPAREN pre = false.
Hypothesis lparen_post : cu_in LPAREN post = false.
Hypothesis blank_plain : ∀ k, cu_in DOLLAR (blank k) = false.

Variable w : jsstring.
Hypothesis w_nonempty : w ≠ [].
Variable k : N.

Lemma blank_nonempty : blank k ≠ [].
Proof. by rewrite blank_eq, pre_eq. Qed.

(** A text free of [h] that the blanked text starts with was already at
    the start of the original text. *)
Lemma blanked_prefix t u :
  cu_in h u = false →
  startsWith (blankOut w (blank k) t) u = true → startsWith t u = true.
Proof.
  revert u.
  apply (scan1_ind w (λ t, ∀ u, cu_in h u = false →
           startsWith (blankOut w (blank k) t) u = true → startsWith t u = true));
    [done|..].
  - intros u _. by rewrite blankOut_nil.
  - intros t' _ u Hu. rewrite blankOut_hit, blank_eq, pre_eq by done.
    destruct u as [|x u]; [done|]. simpl.
    intros [->%N.eqb_eq _]%andb_true_iff.
    unfold cu_in in Hu. cbn [existsb] in Hu. by rewrite N.eqb_refl in Hu.
  - intros c t' Hs IH u Hu. rewrite blankOut_miss by done.
    destruct u as [|x u]; [done|]. simpl.
    intros [Hx Hr]%andb_true_iff. rewrite Hx. simpl. apply IH; [|done].
    unfold cu_in in Hu. cbn [existsb] in Hu. by apply orb_false_iff in Hu as [_ ?].
Qed.

(** No label starts in the blanked text before the first position a
    marker can put one. *)
Lemma blanked_label_early j t :
  strIncludes t (label j) = false →
  ∀ q, q < length pre →
    startsWith (drop q (blankOut w (blank k) t)) (label j) = false.
Proof.
  apply (scan1_ind w (λ t, strIncludes t (label j) = false →
           ∀ q, q < length pre →
             startsWith (drop q (blankOut w (blank k) t)) (label j) = false));
    [done|..].
  - intros _ q _. rewrite blankOut_nil by done. by destruct q.
  - intros t' _ _ q Hq. rewrite blankOut_hit, blank_eq by done.
    rewrite <- app_assoc, drop_app_le by lia. rewrite label_head.
    by apply startsWith_head_absent.
  - intros c t' Hs IH Hc q Hq. rewrite blankOut_miss by done.
    destruct q as [|q].
    + rewrite drop_0, <- (blankOut_miss w (blank k)) by done.
      destruct (startsWith (blankOut w (blank k) (c :: t')) (label j)) eqn:E;
        [|done].
      apply blanked_prefix in E; [|done].
      by rewrite (strIncludes_head _ _ Hc) in E.
    + simpl. apply IH; [by eapply strIncludes_tail | lia].
Qed.

(** Replacing the markers of number [k] by the word gives the text back,
    if the text held no label of that number. *)
Lemma fill_blanked t :
  strIncludes t (label k) = false →
  blankOut (blank k) w (blankOut w (blank k) t) = t.
Proof.
  apply (scan1_ind w (λ t, strIncludes t (label k) = false →
           blankOut (blank k) w (blankOut w (blank k) t) = t)); [done|..].
  - intros _. rewrite blankOut_nil by done.
    apply blankOut_nil, blank_nonempty.
  - intros t' IH Hc. rewrite blankOut_hit by done.
    rewrite blankOut_hit by apply blank_nonempty.
    f_equal. apply IH. by eapply strIncludes_app_r.
  - intros c t' Hs IH Hc. rewrite blankOut_miss by done.
    rewrite blankOut_miss; [|apply blank_nonempty|].
    + f_equal. apply IH. by eapply strIncludes_tail.
    + destruct (startsWith (c :: blankOut w (blank k) t') (blank k)) eqn:E;
        [|done].
      assert (startsWith (drop (length pre') (blankOut w (blank k) t')) (label k)
              = true) as E'.
      { revert E. generalize (blankOut w (blank k) t'). intros X E.
        rewrite blank_eq, pre_eq in E. cbn [app startsWith] in E.
        apply andb_true_iff in E as [_ E].
        apply startsWith_app_drop, startsWith_prefix in E.
        apply startsWith_prefix. etrans; [|done]. by apply prefix_app_r. }
      rewrite blanked_label_early in E'; [done| by eapply strIncludes_tail |].
      rewrite pre_eq. simpl. lia.
Qed.

(** Blanking with number [k] brings no label of another number in. *)
Lemma blanked_no_label j t :
  j ≠ k → strIncludes t (label j) = false →
  strIncludes (blankOut w (blank k) t) (label j) = false.
Proof.
  intros Hjk.
  apply (scan1_ind w (λ t, strIncludes t (label j) = false →
           strIncludes (blankOut w (blank k) t) (label j) = false));
    [done|..].
  - intros _. by rewrite blankOut_nil.
  - intros t' IH Hc. rewrite blankOut_hit by done.
    apply strIncludes_app_false; [|apply IH; by eapply strIncludes_app_r].
    intros q Hq. rewrite blank_eq in Hq |- *.
    destruct (decide (q < length pre)) as [Hlt|Hge].
    { rewrite drop_app_le, <- app_assoc, label_head by lia.
      by apply startsWith_head_absent. }
    rewrite drop_app_ge by lia.
    destruct (q - length pre) as [|i] eqn:Ei.
    { rewrite drop_0, <- app_assoc. by apply label_mismatch. }
    rewrite label_head. cbn [app drop]. rewrite (label_head j).
    apply startsWith_head_absent.
    + rewrite !cu_in_app, lparen_post, cu_in_toString by done. done.
    + rewrite label_head, length_app in Hq. cbn [app length] in Hq. lia.
  - intros c t' Hs IH Hc. rewrite blankOut_miss by done.
    rewrite strIncludes_cons. apply orb_false_iff. split.
    + rewrite <- (blankOut_miss w (blank k)) by done.
      destruct (startsWith (blankOut w (blank k) (c :: t')) (label j)) eqn:E;
        [|done].
      apply blanked_prefix in E; [|done].
      by rewrite (strIncludes_head _ _ Hc) in E.
    + apply IH. by eapply strIncludes_tail.
Qed.
End Restore.

Section RestoreAll.
Variable blank : N → jsstring.
Variables (pre post pre' : jsstring) (h : cu).
Hypothesis blank_eq : ∀ k, blank k = pre ++ label k ++ post.
Hypothesis pre_eq : pre = h :: pre'.
Hypothesis h_foreign : ∀ k, cu_in h (label k) = false.
Hypothesis lparen_pre : cu_in LPAREN pre = false.
Hypothesis lparen_post : cu_in LPAREN post = false.
Hypothesis blank_plain : ∀ k, cu_in DOLLAR (blank k) = false.

(** Filling the blanks from the highest number down undoes the loop of
    [generateAndSetQuiz], whatever the words are, as long as the text
    held none of the labels the loop hands out. *)
Lemma restore_seqReplace ws :
  (∀ w, w ∈ ws → w ≠ []) →
  ∀ k t,
    (∀ j, (k ≤ j < k + N.of_nat (length ws))%N → strIncludes t (label j) = false) →
    restore blank (numbered k ws) (seqReplace (λ n _, blank n) k ws t) = t.
Proof.
  induction ws as [|w ws IH]; intros Hne k t Hfree; [done|].
  cbn [numbered seqReplace]. unfold restore. cbn [foldr].
  change (foldr (fillBlank blank) ?x ?a) with (restore blank a x).
  assert (w ≠ []) as Hw by (apply Hne; by left).
  rewrite replace_blankOut by apply blank_plain.
  rewrite IH.
  - unfold fillBlank. cbn [number word].
    change (replaceConst (litRegex ?m) ?r [] ?x) with (blankOut m r x).
    eapply fill_blanked; [done..|]. apply Hfree. simpl. lia.
  - intros; apply Hne; by right.
  - intros j Hj. eapply blanked_no_label; [done..| lia |].
    apply Hfree. simpl. lia.
Qed.
End RestoreAll.

Lemma App_blank_shape k : App.blank k = str "**" ++ label k ++ str "**".
Proof. unfold App.blank, label. by rewrite <- !app_assoc. Qed.

Lemma AppTs_blank_shape k : AppTs.blank k = spanOpen ++ label k ++ str " </span>".
Proof. unfold AppTs.blank, label, spanOpen. by rewrite <- !app_assoc. Qed.

Lemma App_restore ws t :
  (∀ w, w ∈ ws → w ≠ []) →
  (∀ j, (1 ≤ j ≤ N.of_nat (length ws))%N → strIncludes t (label j) = false) →
  restore App.blank (numbered 1 ws) (seqReplace (λ n _, App.blank n) 1 ws t) = t.
Proof.
  intros Hne Hfree.
  apply (restore_seqReplace App.blank (str "**") (str "**") (str "*") (ch "*"));
    [apply App_blank_shape | done | | done | done | apply App_blank_plain | done |].
  - intros k. by apply cu_in_label.
  - intros j Hj. apply Hfree. lia.
Qed.

Lemma AppTs_restore ws t :
  (∀ w, w ∈ ws → w ≠ []) →
  (∀ j, (1 ≤ j ≤ N.of_nat (length ws))%N → strIncludes t (label j) = false) →
  restore AppTs.blank (numbered 1 ws) (seqReplace (λ n _, AppTs.blank n) 1 ws t) = t.
Proof.
  intros Hne Hfree.
  apply (restore_seqReplace AppTs.blank spanOpen (str " </span>") (tail spanOpen) (ch "<"));
    [apply AppTs_blank_shape | done | | done | done | apply AppTs_blank_plain | done |].
  - intros k. by apply cu_in_label.
  - intros j Hj. apply Hfree. lia.
Qed.

(** ** Markers that stay whole *)

Lemma agree_sym a b : agree a b = agree b a.
Proof. unfold agree. apply orb_comm. Qed.

Lemma agree_cons c a x b : agree (c :: a) (x :: b) = (c =? x)%N && agree a b.
Proof.
  unfold agree. cbn [startsWith]. rewrite (N.eqb_sym x c).
  by destruct (c =? x)%N.
Qed.

Lemma agree_nil_r a : agree a [] = true.
Proof. by destruct a. Qed.

(** A word that a text starts with agrees with every beginning of that
    text. *)
Lemma startsWith_app_agree m y w : startsWith (m ++ y) w = true → agree m w = true.
Proof.
  revert w. induction m as [|c m IH]; intros w H.
  - by rewrite agree_sym, agree_nil_r.
  - destruct w as [|x w]; [done|]. rewrite agree_cons.
    cbn [app startsWith] in H. apply andb_true_iff in H as [-> H].
    simpl. by apply IH.
Qed.

Lemma meets_drop m w p :
  meets m w = false → p < length m → agree (drop p m) w = false.
Proof.
  revert p. induction m as [|c m IH]; intros p Hm Hp; [simpl in Hp; lia|].
  cbn [meets] in Hm. apply orb_false_iff in Hm as [H0 Hm].
  destruct p as [|p]; [done|]. simpl. apply IH; [done | simpl in Hp; lia].
Qed.

Lemma meets_nil_r a : a ≠ [] → meets a [] = true.
Proof. destruct a as [|c a]; [done|]. intros _. cbn [meets]. by rewrite agree_nil_r. Qed.

(** The scan for [w] runs through a stretch of text in which no occurrence
    of [w] starts. *)
Lemma blankOut_through w r u t :
  w ≠ [] → (∀ p, p < length u → startsWith (drop p u ++ t) w = false) →
  blankOut w r (u ++ t) = u ++ blankOut w r t.
Proof.
  intros Hw. induction u as [|c u IH]; intros Hu; [done|].
  cbn [app]. rewrite blankOut_miss; [|done|apply (Hu 0); simpl; lia].
  f_equal. apply IH. intros p Hp. apply (Hu (S p)). simpl. lia.
Qed.

Lemma startsWith_app_l t a b : startsWith t (a ++ b) = true → startsWith t a = true.
Proof.
  intros H%startsWith_prefix. apply startsWith_prefix.
  etrans; [|done]. by apply prefix_app_r.
Qed.

Lemma numbered_elem k ws a :
  a ∈ numbered k ws ↔ ∃ i, ws !! i = Some (word a) ∧ number a = (k + N.of_nat i)%N.
Proof.
  rewrite numbered_imap, elem_of_lookup_imap. split.
  - intros (i & w & -> & Hi). by exists i.
  - intros (i & Hi & Hn). exists i, (word a). split; [|done].
    destruct a as [n w]. simpl in *. by rewrite Hn.
Qed.

Lemma numbered_word k ws a b :
  a ∈ numbered k ws → b ∈ numbered k ws → number b = number a → word b = word a.
Proof.
  intros (i & Hi & Hn)%numbered_elem (j & Hj & Hm)%numbered_elem Heq.
  assert (i = j) as -> by lia. congruence.
Qed.

Lemma numbered_range k ws a :
  a ∈ numbered k ws → (k ≤ number a < k + N.of_nat (length ws))%N.
Proof.
  intros (i & Hi%lookup_lt_Some & Hn)%numbered_elem. lia.
Qed.

Section BlankedFacts.
Variable rep : N → jsstring → jsstring.

Lemma Blanked_mono (P Q : AnswerData → Prop) t q :
  (∀ a, P a → Q a) → Blanked rep P t q → Blanked rep Q t q.
Proof. intros HPQ. induction 1; constructor; auto. Qed.

Lemma Blanked_refl P t : Blanked rep P t t.
Proof. induction t; by constructor. Qed.

Lemma Blanked_keeps P u t q : Blanked rep P t q → Blanked rep P (u ++ t) (u ++ q).
Proof. intros H. induction u; [done|]. by apply Blanked_keep. Qed.

(** With no marker allowed, nothing is replaced. *)
Lemma Blanked_none P t q : (∀ a, ¬ P a) → Blanked rep P t q → q = t.
Proof.
  intros HP. induction 1 as [|c t q _ IH|a t q Ha _ _];
    [done | by rewrite IH | by destruct (HP a)].
Qed.

(** A word that the blanked text starts with, and that no marker can start
    in, covers kept code units only: the original text starts with it
    too. *)
Lemma Blanked_window P w :
  (∀ a, P a → meets w (rep (number a) (word a)) = false) →
  ∀ t q, Blanked rep P t q → startsWith q w = true →
    ∃ t' q', t = w ++ t' ∧ q = w ++ q' ∧ Blanked rep P t' q'.
Proof.
  induction w as [|x w IH]; intros Hclear t q HB Hs; [by exists t, q|].
  destruct HB as [|c t q HB|a t q Ha HB]; [done|..].
  - cbn [startsWith] in Hs. apply andb_true_iff in Hs as [->%N.eqb_eq Hs].
    destruct (IH ltac:(intros a Ha; specialize (Hclear a Ha); cbn [meets] in Hclear;
                       by apply orb_false_iff in Hclear as [_ ?]) t q HB Hs)
      as (t' & q' & -> & -> & HB').
    by exists t', q'.
  - exfalso. specialize (Hclear a Ha). cbn [meets] in Hclear.
    apply orb_false_iff in Hclear as [Hag _].
    apply startsWith_app_agree in Hs. rewrite agree_sym in Hs. congruence.
Qed.

(** One replacement of the loop, for a word that can overlap none of the
    markers written so far: those markers stay whole, and the new markers
    stand where the word stood in the original text. *)
Lemma blankOut_Blanked P w k :
  w ≠ [] →
  (∀ a, P a → overlap w (rep (number a) (word a)) = false) →
  ∀ t q, Blanked rep P t q →
    Blanked rep (λ a, P a ∨ a = {| number := k; word := w |}) t
      (blankOut w (rep k w) q).
Proof.
  intros Hw Hclear t q. remember (length q) as m eqn:Hm. revert t q Hm.
  induction m as [m IH] using lt_wf_ind. intros t q Hm HB.
  assert (∀ a, P a → meets w (rep (number a) (word a)) = false) as Hwm.
  { intros a Ha. specialize (Hclear a Ha). unfold overlap in Hclear.
    by apply orb_false_iff in Hclear as [? _]. }
  destruct HB as [|c t q HB|a t q Ha HB].
  - rewrite blankOut_nil by done. constructor.
  - destruct (startsWith (c :: q) w) eqn:E.
    + destruct (Blanked_window P w Hwm (c :: t) (c :: q)
                  (Blanked_keep rep P c t q HB) E) as (t' & q' & Ht & Hq & HB').
      rewrite Ht, Hq, blankOut_hit by done.
      apply (Blanked_hit rep _ {| number := k; word := w |}); [by right|].
      apply (IH (length q')); [|done|done].
      rewrite Hm, Hq, length_app. destruct w; [done|]. simpl. lia.
    + rewrite blankOut_miss by done. apply Blanked_keep.
      apply (IH (length q)); [simpl in Hm; lia | done | done].
  - pose proof (Hclear a Ha) as Ho. unfold overlap in Ho.
    apply orb_false_iff in Ho as [Ho1 Ho2].
    rewrite blankOut_through; [|done|].
    + apply Blanked_hit; [by left|]. apply (IH (length q)); [|done|done].
      rewrite Hm, length_app.
      destruct (rep (number a) (word a)); [|simpl; lia].
      by rewrite meets_nil_r in Ho1.
    + intros p Hp. destruct (startsWith _ w) eqn:E; [|done].
      apply startsWith_app_agree in E. by rewrite (meets_drop _ _ _ Ho2 Hp) in E.
Qed.

(** The whole loop, when no word can overlap the marker of an earlier
    one. *)
Lemma seqReplace_Blanked ws :
  (∀ w, w ∈ ws → w ≠ []) →
  (∀ k w, w ∈ ws → cu_in DOLLAR (rep k w) = false) →
  ∀ k P t q,
    Blanked rep P t q →
    (∀ u a, u ∈ ws → P a → overlap u (rep (number a) (word a)) = false) →
    clearOfEarlier rep k ws = true →
    Blanked rep (λ a, P a ∨ a ∈ numbered k ws) t (seqReplace rep k ws q).
Proof.
  induction ws as [|w ws IH]; intros Hne Hplain k P t q HB HP Hclear.
  - simpl. eapply Blanked_mono; [|done]. by left.
  - cbn [seqReplace clearOfEarlier numbered] in *.
    apply andb_true_iff in Hclear as [Hw Hclear].
    rewrite replace_blankOut by (apply Hplain; by left).
    assert (Blanked rep (λ a, P a ∨ a = {| number := k; word := w |}) t
              (blankOut w (rep k w) q)) as HB1.
    { apply blankOut_Blanked; [apply Hne; by left | | done].
      intros a Ha. apply HP; [by left | done]. }
    eapply Blanked_mono; [|apply (IH ltac:(intros; apply Hne; by right)
                                     ltac:(intros; apply Hplain; by right)
                                     (k + 1)%N _ t _ HB1); [|exact Hclear]].
    + intros a [[Ha| ->]|Ha]; [by left | right; by left | right; by right].
    + intros u a Hu [Ha| ->].
      * apply HP; [by right | done].
      * cbn [number word]. rewrite forallb_forall in Hw.
        apply negb_true_iff, Hw. by apply list_elem_of_In.
Qed.
End BlankedFacts.

(** Putting the words back: with the markers whole, each fill takes the
    markers of one number out and touches nothing else, whatever the order
    of the fills. *)
Section Fill.
Variable blank : N → jsstring.
Variables (pre post pre' : jsstring) (h : cu).
Hypothesis blank_eq : ∀ k, blank k = pre ++ label k ++ post.
Hypothesis pre_eq : pre = h :: pre'.
Hypothesis h_foreign : ∀ k, cu_in h (label k) = false.
Hypothesis lparen_pre : cu_in LPAREN pre = false.
Hypothesis lparen_post : cu_in LPAREN post = false.

Lemma marker_nonempty k : blank k ≠ [].
Proof. by rewrite blank_eq, pre_eq. Qed.

Lemma Blanked_prefix P t q u :
  Blanked (λ n _, blank n) P t q →
  cu_in h u = false → startsWith q u = true → startsWith t u = true.
Proof.
  intros HB. revert u.
  induction HB as [|c t q HB IH|a t q Ha HB IH]; intros u Hu Hs; [done|..].
  - destruct u as [|x u]; [done|]. cbn [startsWith] in *.
    apply andb_true_iff in Hs as [Hx Hs]. rewrite Hx. simpl. apply IH; [|done].
    unfold cu_in in Hu. cbn [existsb] in Hu. by apply orb_false_iff in Hu as [_ ?].
  - destruct u as [|x u]; [done|]. exfalso.
    rewrite blank_eq, pre_eq in Hs. cbn [app startsWith] in Hs.
    apply andb_true_iff in Hs as [Hx _].
    unfold cu_in in Hu. cbn [existsb] in Hu. by rewrite Hx in Hu.
Qed.

Lemma Blanked_label_early P j t q :
  Blanked (λ n _, blank n) P t q →
  strIncludes t (label j) = false →
  ∀ p, p < length pre → startsWith (drop p q) (label j) = false.
Proof.
  induction 1 as [|c t q HB IH|a t q Ha HB IH]; intros Hfree p Hp.
  - by destruct p.
  - destruct p as [|p].
    + rewrite drop_0. destruct (startsWith (c :: q) (label j)) eqn:E; [|done].
      apply (Blanked_prefix P (c :: t)) in E; [|by constructor|done].
      by rewrite (strIncludes_head _ _ Hfree) in E.
    + simpl. apply IH; [by eapply strIncludes_tail | lia].
  - rewrite blank_eq, <- app_assoc, drop_app_le by lia. rewrite (label_head j).
    by apply startsWith_head_absent.
Qed.

(** No marker of number [k] starts on a code unit of a marker of another
    number. *)
Lemma marker_no_start P i k t q p :
  i ≠ k → Blanked (λ n _, blank n) P t q →
  strIncludes t (label k) = false → p < length (blank i) →
  startsWith (drop p (blank i) ++ q) (blank k) = false.
Proof.
  intros Hik HB Hfree Hp. destruct (startsWith _ (blank k)) eqn:E; [|done]. exfalso.
  assert (startsWith (drop (length pre) (drop p (blank i) ++ q)) (label k) = true)
    as E'.
  { rewrite (blank_eq k) in E. apply startsWith_app_drop in E.
    by apply startsWith_app_l in E. }
  clear E. rewrite <- drop_app_le, drop_drop in E' by lia.
  rewrite blank_eq in Hp. rewrite !length_app in Hp.
  rewrite blank_eq, <- !app_assoc, drop_app_ge in E' by lia.
  replace (p + length pre - length pre) with p in E' by lia.
  destruct p as [|p].
  - rewrite drop_0 in E'. by rewrite label_mismatch in E'.
  - rewrite (label_head i) in E'. rewrite (label_head i) in Hp.
    cbn [app drop length] in E', Hp.
    set (rest := str " No." ++ toString i ++ str " )") in *.
    rewrite app_assoc in E'.
    destruct (decide (p < length (rest ++ post))) as [Hlt|Hge].
    + rewrite drop_app_le, (label_head k) in E' by lia.
      rewrite startsWith_head_absent in E'; [done| |done].
      unfold rest. by rewrite !cu_in_app, lparen_post, cu_in_toString.
    + rewrite drop_app_ge in E' by lia.
      rewrite (Blanked_label_early P k t q) in E'; [done..|].
      rewrite length_app in *. lia.
Qed.

(** One fill: the markers of number [k] give way to the word, the other
    markers stay whole. *)
Lemma fill_Blanked P k w0 t q :
  Blanked (λ n _, blank n) P t q →
  strIncludes t (label k) = false →
  (∀ a, P a → number a = k → word a = w0) →
  Blanked (λ n _, blank n) (λ a, P a ∧ number a ≠ k) t (blankOut (blank k) w0 q).
Proof.
  intros HB Hfree HP. induction HB as [|c t q HB IH|a t q Ha HB IH].
  - rewrite blankOut_nil by apply marker_nonempty. constructor.
  - rewrite blankOut_miss; [|apply marker_nonempty|].
    + apply Blanked_keep, IH. by eapply strIncludes_tail.
    + destruct (startsWith (c :: q) (blank k)) eqn:E; [|done].
      assert (startsWith (drop (length pre') q) (label k) = true) as E'.
      { rewrite blank_eq, pre_eq in E. cbn [app startsWith] in E.
        apply andb_true_iff in E as [_ E].
        apply startsWith_app_drop in E. by apply startsWith_app_l in E. }
      rewrite (Blanked_label_early P k t q) in E';
        [done | done | by eapply strIncludes_tail |].
      rewrite pre_eq. simpl. lia.
  - cbn beta. destruct (decide (number a = k)) as [Hk|Hk].
    + rewrite Hk, blankOut_hit by apply marker_nonempty.
      rewrite (HP a Ha Hk). apply Blanked_keeps, IH.
      by eapply strIncludes_app_r.
    + rewrite blankOut_through; [|apply marker_nonempty|].
      * apply (Blanked_hit (λ n _, blank n) _ a); [done|]. apply IH.
        by eapply strIncludes_app_r.
      * intros p Hp. eapply marker_no_start; [done | done | | done].
        by eapply strIncludes_app_r.
Qed.

Lemma restore_Blanked P order t q :
  Blanked (λ n _, blank n) P t q →
  (∀ a, a ∈ order → strIncludes t (label (number a)) = false) →
  (∀ a b, a ∈ order → P b → number b = number a → word b = word a) →
  Blanked (λ n _, blank n) (λ b, P b ∧ ∀ a, a ∈ order → number b ≠ number a) t
    (restore blank order q).
Proof.
  intros HB. induction order as [|a order IH]; intros Hfree Hcons.
  - simpl. eapply Blanked_mono; [|done]. intros b Hb. split; [done|].
    by intros a ?%elem_of_nil.
  - unfold restore. cbn [foldr].
    change (foldr (fillBlank blank) ?x ?l) with (restore blank l x).
    unfold fillBlank.
    change (replaceConst (litRegex ?m) ?r [] ?x) with (blankOut m r x).
    assert (Blanked (λ n _, blank n)
              (λ b, P b ∧ ∀ a', a' ∈ order → number b ≠ number a') t
              (restore blank order q)) as HB1.
    { apply IH; [intros; apply Hfree; by right|].
      intros a' b Ha'. apply Hcons. by right. }
    eapply Blanked_mono;
      [|apply (fill_Blanked _ (number a) (word a) _ _ HB1); [apply Hfree; by left|]].
    + intros b [[Hb Hn] Hna]. split; [done|].
      intros a' [->|Ha']%elem_of_cons; [done | by apply Hn].
    + intros b [Hb _]. apply Hcons; [by left | done].
Qed.

(** All fills, taken in whatever order, give the original text back. *)
Lemma restore_any_order ws k order t q :
  Blanked (λ n _, blank n) (λ a, a ∈ numbered k ws) t q →
  order ≡ₚ numbered k ws →
  (∀ j, (k ≤ j < k + N.of_nat (length ws))%N → strIncludes t (label j) = false) →
  restore blank order q = t.
Proof.
  intros HB Hperm Hfree.
  eapply (Blanked_none (λ n _, blank n)); [|apply restore_Blanked; [done|..]].
  - intros b [Hb Hn]. apply (Hn b); [by rewrite Hperm | done].
  - intros a Ha. rewrite Hperm in Ha. apply Hfree. by apply numbered_range.
  - intros a b Ha Hb. rewrite Hperm in Ha. by apply (numbered_word k ws).
Qed.
End Fill.

(** What the loops of the components leave, when no target can overlap
    the marker of an earlier one. *)
Lemma seqReplace_whole rep ws t :
  (∀ w, w ∈ ws → w ≠ []) →
  (∀ k w, w ∈ ws → cu_in DOLLAR (rep k w) = false) →
  clearOfEarlier rep 1 ws = true →
  Blanked rep (λ a, a ∈ numbered 1 ws) t (seqReplace rep 1 ws t).
Proof.
  intros Hne Hplain Hclear.
  eapply Blanked_mono;
    [|apply (seqReplace_Blanked rep ws Hne Hplain 1 (λ _, False) t t);
      [apply Blanked_refl | done | done]].
  by intros a [[]|?].
Qed.

(** ** The selection set never holds an empty string *)

Lemma nonemptyTargets_add w s :
  w ≠ [] → nonemptyTargets s → nonemptyTargets (Set_add w s).
Proof. intros Hw Hs u [->|Hu]%Set_add_elem; [done | by apply Hs]. Qed.

Lemma nonemptyTargets_delete w s :
  nonemptyTargets s → nonemptyTargets (Set_delete w s).
Proof.
  intros Hs u Hu. apply Hs. unfold Set_delete in Hu.
  by apply list_elem_of_filter in Hu as [_ ?].
Qed.

Lemma wellFormed_nil : wellFormed [].
Proof. split; [constructor | by intros w ?%elem_of_nil]. Qed.

Lemma wellFormed_add w s : w ≠ [] → wellFormed s → wellFormed (Set_add w s).
Proof.
  intros Hw [Hd Hn]. split; [by apply Set_add_NoDup | by apply nonemptyTargets_add].
Qed.

Lemma wellFormed_delete w s : wellFormed s → wellFormed (Set_delete w s).
Proof.
  intros [Hd Hn]. split; [by apply NoDup_filter | by apply nonemptyTargets_delete].
Qed.

Lemma App_handleSelection_wf sel st :
  wellFormed (App.selections st) →
  wellFormed (App.selections (App.handleSelection sel st)).
Proof.
  intros Hs. unfold App.handleSelection.
  destruct (App.viewMode st); [|done].
  destruct (trim sel) as [|c s] eqn:E; [done|]. simpl.
  by apply wellFormed_add.
Qed.

Lemma App_handlePreviewClick_wf e st :
  wellFormed (App.selections st) →
  wellFormed (App.selections (App.handlePreviewClick e st)).
Proof.
  intros Hs. unfold App.handlePreviewClick.
  destruct (App.viewMode st); [|done].
  destruct (jsstring_eqb _ _); [|done].
  destruct (innerText e); [done|]. simpl. by apply wellFormed_delete.
Qed.

Lemma App_generate_selections st st' :
  App.generateAndSetQuiz st = Some st' → App.selections st' = App.selections st.
Proof.
  destruct (App.selections st) as [|w ws] eqn:E.
  - unfold App.generateAndSetQuiz. rewrite E. by intros [= <-].
  - rewrite App_generate_eq by by rewrite E. by intros [= <-].
Qed.

Lemma AppTs_handleSelection_wf sel st :
  wellFormed (AppTs.selections st) →
  wellFormed (AppTs.selections (AppTs.handleSelection sel st)).
Proof.
  intros Hs. unfold AppTs.handleSelection.
  destruct (AppTs.viewMode st); [|done].
  destruct sel as [sel|]; [|done]. cbn [fmap option_fmap option_map].
  destruct (trim sel) as [|c s] eqn:E; [done|]. simpl.
  by apply wellFormed_add.
Qed.

Lemma AppTs_handlePreviewClick_wf e st :
  wellFormed (AppTs.selections st) →
  wellFormed (AppTs.selections (AppTs.handlePreviewClick e st)).
Proof.
  intros Hs. unfold AppTs.handlePreviewClick.
  destruct (AppTs.viewMode st); [|done].
  destruct (jsstring_eqb _ _); [|done].
  destruct (innerText e); [done|]. simpl. by apply wellFormed_delete.
Qed.

Lemma AppTs_generate_selections st st' :
  AppTs.generateAndSetQuiz st = Some st' → AppTs.selections st' = AppTs.selections st.
Proof.
  destruct (AppTs.selections st) as [|w ws] eqn:E.
  - unfold AppTs.generateAndSetQuiz. rewrite E. by intros [= <-].
  - rewrite AppTs_generate_eq by by rewrite E. by intros [= <-].
Qed.

Lemma Editor_handleSelection_wf sel st :
  wellFormed (Editor.selections st) →
  wellFormed (Editor.selections (Editor.handleSelection sel st)).
Proof.
  intros Hs. unfold Editor.handleSelection.
  destruct (trim sel) as [|c s] eqn:E; [done|]. simpl.
  by apply wellFormed_add.
Qed.

Lemma Editor_handlePreviewClick_wf e st :
  wellFormed (Editor.selections st) →
  wellFormed (Editor.selections (Editor.handlePreviewClick e st)).
Proof.
  intros Hs. unfold Editor.handlePreviewClick.
  destruct (jsstring_eqb _ _); [|done].
  destruct (innerText e); [done|]. simpl. by apply wellFormed_delete.
Qed.

Lemma Editor_createQuiz_wf st st' :
  wellFormed (Editor.selections st) → Editor.createQuiz st = Some st' →
  wellFormed (Editor.selections st').
Proof.
  intros Hs. unfold Editor.createQuiz.
  destruct (Set_size (Editor.selections st) =? 0); [by intros [= <-]|].
  destruct (RegExp _) as [re|]; [|done]. cbn [mbind option_bind].
  destruct (replaceWith _ _ _ _) as [n out]. intros [= <-]. apply wellFormed_nil.
Qed.

(** Whatever the user does, the selection set holds distinct, non-empty
    targets. *)
Lemma App_run_wf evs st st' :
  wellFormed (App.selections st) → runEvents App.dispatch evs st = Some st' →
  wellFormed (App.selections st').
Proof.
  revert st. induction evs as [|ev evs IH]; intros st Hs; [by intros [= <-]|].
  cbn [runEvents]. destruct (App.dispatch ev st) as [st1|] eqn:E; [|done].
  cbn [mbind option_bind]. apply IH.
  destruct ev as [[sel|]| | | |]; cbn [App.dispatch] in E;
    try (injection E as <-).
  - by apply App_handleSelection_wf.
  - destruct (App.viewMode st); [done|]. by injection E as <-.
  - by apply App_handlePreviewClick_wf.
  - done.
  - done.
  - by rewrite (App_generate_selections _ _ E).
Qed.

Lemma AppTs_run_wf evs st st' :
  wellFormed (AppTs.selections st) → runEvents AppTs.dispatch evs st = Some st' →
  wellFormed (AppTs.selections st').
Proof.
  revert st. induction evs as [|ev evs IH]; intros st Hs; [by intros [= <-]|].
  cbn [runEvents]. destruct (AppTs.dispatch ev st) as [st1|] eqn:E; [|done].
  cbn [mbind option_bind]. apply IH.
  destruct ev; cbn [AppTs.dispatch] in E; try (injection E as <-).
  - by apply AppTs_handleSelection_wf.
  - by apply AppTs_handlePreviewClick_wf.
  - done.
  - done.
  - by rewrite (AppTs_generate_selections _ _ E).
  - done.
Qed.

Lemma Editor_run_wf evs st st' :
  wellFormed (Editor.selections st) → runEvents Editor.dispatch evs st = Some st' →
  wellFormed (Editor.selections st').
Proof.
  revert st. induction evs as [|ev evs IH]; intros st Hs; [by intros [= <-]|].
  cbn [runEvents]. destruct (Editor.dispatch ev st) as [st1|] eqn:E; [|done].
  cbn [mbind option_bind]. apply IH.
  destruct ev as [[sel|]| | |]; cbn [Editor.dispatch] in E;
    try (injection E as <-).
  - by apply Editor_handleSelection_wf.
  - done.
  - by apply Editor_handlePreviewClick_wf.
  - done.
  - by eapply Editor_createQuiz_wf.
Qed.

Lemma App_reachable_wf evs st :
  runEvents App.dispatch evs App.initial = Some st → wellFormed (App.selections st).
Proof. apply App_run_wf, wellFormed_nil. Qed.

Lemma AppTs_reachable_wf evs st :
  runEvents AppTs.dispatch evs AppTs.initial = Some st →
  wellFormed (AppTs.selections st).
Proof. apply AppTs_run_wf, wellFormed_nil. Qed.

Lemma Editor_reachable_wf evs st :
  runEvents Editor.dispatch evs Editor.initial = Some st →
  wellFormed (Editor.selections st).
Proof. apply Editor_run_wf, wellFormed_nil. Qed.

(** A run of events in which the selection object is never [null] ends
    in a state. *)
Lemma App_run_total evs st :
  Forall (λ ev, ev ≠ App.MouseUp None) evs → is_Some (runEvents App.dispatch evs st).
Proof.
  intros Hevs. revert st. induction Hevs as [|ev evs Hev _ IH]; intros st; [done|].
  cbn [runEvents].
  assert (is_Some (App.dispatch ev st)) as [st1 ->]; [|apply IH].
  destruct ev as [[sel|]| | | |]; cbn [App.dispatch]; try done.
  destruct (App.selections st) as [|w ws] eqn:E.
  - unfold App.generateAndSetQuiz. by rewrite E.
  - by rewrite App_generate_eq by by rewrite E.
Qed.

Lemma nonemptyTargets_singleton w : w ≠ [] → nonemptyTargets [w].
Proof. by intros Hw u ->%list_elem_of_singleton. Qed.

(** ** Claims *)

(** *** C1 *)

(** C1: the code misses what the claim says.  The loop of
    [generateAndSetQuiz] runs each replacement over the text that already
    holds the markers of the earlier targets, and so rewrites inside those
    markers.  With the text [cat No] and the targets [cat] and [No],
    selected in that order, the [No] of the marker written for [cat] is
    replaced as well: the quiz text holds no marker of number 1 any more,
    although the answer key lists [cat] under number 1, and it is not the
    source text with every occurrence of each target replaced by the
    marker of that target's number.  [createQuiz] of [Editor], which makes
    one pass over the source text, blanks the same input as the claim
    says.  [highlightedText] has the same loop: with the targets [cat] and
    [mark], the wrapper of [cat] is rewritten. *)
Theorem generate_rewrites_inside_marker :
  let st := appState (str "cat No") [str "cat"; str "No"] in
  let byTarget := λ (_ : N) w, App.blank (numberOf 1 (App.selections st) w) in
  (∃ st', App.generateAndSetQuiz st = Some st'
     ∧ App.quizText st' = str "**( **( No.2 )**.1 )** **( No.2 )**"
     ∧ App.quizAnswers st'
       = [{| number := 1; word := str "cat" |}; {| number := 2; word := str "No" |}]
     ∧ strIncludes (App.quizText st') (App.blank 1) = false
     ∧ Pass (App.selections st) byTarget 0 (App.markdown st)
         (str "**( No.1 )** **( No.2 )**")
     ∧ ¬ Pass (App.selections st) byTarget 0 (App.markdown st) (App.quizText st'))
  ∧ Editor.createQuiz (editorState (str "cat No") [str "cat"; str "No"])
    = Some (editorState (str "({1}) ({2})") [])
  ∧ (∃ marked,
       App.highlightedText (appState (str "cat mark") [str "cat"; str "mark"])
       = Some marked
       ∧ strIncludes marked (markTemplate (str "cat")) = false).
Proof.
  split; [|split; [reflexivity|]].
  - eexists. split; [reflexivity|]. split; [reflexivity|]. split; [reflexivity|].
    split; [reflexivity|]. split.
    + (* what the claim asks for: both occurrences replaced, each by the
         marker of its target *)
      set (ws := [str "cat"; str "No"]).
      set (rep := λ (_ : N) w, App.blank (numberOf 1 ws w)).
      change (Pass ws rep 0 (str "cat" ++ str " No")
                (rep 0%N (str "cat") ++ str " **( No.2 )**")).
      apply Pass_hit; [by left | done |].
      change (Pass ws rep (0 + 1) (ch " " :: str "No") (ch " " :: str "**( No.2 )**")).
      apply Pass_keep.
      { intros w [->|[->|[]%elem_of_nil]%elem_of_cons]%elem_of_cons [k Hk];
          discriminate. }
      change (Pass ws rep (0 + 1) (str "No" ++ []) (rep (0 + 1)%N (str "No") ++ [])).
      apply Pass_hit; [by right; left | done |]. apply Pass_end.
    + (* The text starts with [c], so the first step of a pass either keeps
         [c] or puts a marker, which starts with [**( No.]; the quiz text
         starts with [**( **(]. *)
      intros HP. vm_compute in HP. inversion HP.
  - eexists. split; reflexivity.
Qed.

Example generate_cat_cat_dog :
  App.generateAndSetQuiz (appState (str "cat cat dog") [str "cat"])
  = Some {| App.viewMode := quiz; App.markdown := str "cat cat dog";
            App.quizText := str "**( No.1 )** **( No.1 )** dog";
            App.selections := [str "cat"];
            App.quizAnswers := [{| number := 1; word := str "cat" |}] |}.
Proof. reflexivity. Qed.

Example generate_overlapping_targets :
  App.quizText <$> App.generateAndSetQuiz (appState (str "a cat") [str "a"; str "cat"])
  = Some (str "**( No.1 )** c**( No.1 )**t").
Proof. reflexivity. Qed.

Example generate_ts_cat_cat_dog :
  AppTs.quizText <$> AppTs.generateAndSetQuiz (appTsState (str "cat cat dog") [str "cat"])
  = Some (AppTs.blank 1 ++ str " " ++ AppTs.blank 1 ++ str " dog").
Proof. reflexivity. Qed.

Example highlight_cat_cat_dog :
  App.highlightedText (appState (str "cat cat dog") [str "cat"])
  = Some (markOpen ++ str "cat" ++ markClose ++ str " "
          ++ markOpen ++ str "cat" ++ markClose ++ str " dog").
Proof. reflexivity. Qed.

(** *** C2 *)

(** C2, as stated, fails.  The same two targets inserted in the two
    possible orders get their numbers swapped, and [fox], selected first,
    gets number 1 although [quick] appears earlier in the text. *)
Lemma numbering_by_first_appearance_counterexample :
  let md := str "The quick brown fox" in
  let s1 := [str "fox"; str "quick"] in
  let s2 := [str "quick"; str "fox"] in
  s1 ≡ₚ s2
  ∧ App.quizAnswers <$> App.generateAndSetQuiz (appState md s1)
    = Some [{| number := 1; word := str "fox" |}; {| number := 2; word := str "quick" |}]
  ∧ App.quizAnswers <$> App.generateAndSetQuiz (appState md s2)
    = Some [{| number := 1; word := str "quick" |}; {| number := 2; word := str "fox" |}]
  ∧ App.quizAnswers <$> App.generateAndSetQuiz (appState md s1)
    ≠ App.quizAnswers <$> App.generateAndSetQuiz (appState md s2).
Proof.
  split_and!; [apply perm_swap | reflexivity | reflexivity | discriminate].
Qed.

(** C2, amended.  [generateAndSetQuiz] numbers the targets by insertion
    order into the selection set: the target inserted in place [i]
    (counting from 0) gets number [i + 1], whatever the source text is and
    wherever the target appears in it. *)
Theorem numbering_by_insertion_order :
  (∀ st : App.State, App.selections st ≠ [] →
     ∃ st', App.generateAndSetQuiz st = Some st'
       ∧ App.quizAnswers st'
         = imap (λ i w, {| number := 1 + N.of_nat i; word := w |}) (App.selections st))
  ∧ (∀ st : AppTs.State, AppTs.selections st ≠ [] →
     ∃ st', AppTs.generateAndSetQuiz st = Some st'
       ∧ AppTs.quizAnswers st'
         = imap (λ i w, {| number := 1 + N.of_nat i; word := w |}) (AppTs.selections st)).
Proof.
  split; intros st Hsel; eexists.
  - split; [by apply App_generate_eq | apply numbered_imap].
  - split; [by apply AppTs_generate_eq | apply numbered_imap].
Qed.

Lemma numbering_by_insertion_order_witness :
  let st := appState (str "The quick brown fox") [str "fox"; str "quick"] in
  App.selections st ≠ []
  ∧ ∃ st', App.generateAndSetQuiz st = Some st'
      ∧ App.quizAnswers st'
        = imap (λ i w, {| number := 1 + N.of_nat i; word := w |}) (App.selections st).
Proof.
  split; [done|].
  apply (proj1 numbering_by_insertion_order
           (appState (str "The quick brown fox") [str "fox"; str "quick"])).
  done.
Defined.

(** *** C3 *)

Example unescaped_dot_is_wildcard :
  ∃ re, RegExp (str "a.b") = Some re ∧ matchAt re (str "axb") = Some [].
Proof. eexists. split; reflexivity. Qed.

(** C3.  The pattern built from a target, whatever code units the target
    holds, compiles, and it matches at a position exactly when the text
    there starts with the target itself, the match being the target.
    With the text [a.b and axb] and the target [a.b], only [a.b] is marked
    or blanked. *)
Theorem escaped_pattern_is_literal :
  (∀ w : jsstring, ∃ re,
     RegExp (escapeRegExp w) = Some re
     ∧ ∀ t rest, matchAt re t = Some rest ↔ t = w ++ rest)
  ∧ App.highlightedText (appState (str "a.b and axb") [str "a.b"])
    = Some (markOpen ++ str "a.b" ++ markClose ++ str " and axb")
  ∧ App.quizText <$> App.generateAndSetQuiz (appState (str "a.b and axb") [str "a.b"])
    = Some (str "**( No.1 )** and axb").
Proof.
  split; [|split; reflexivity].
  intros w. exists (litRegex w). split; [apply RegExp_escapeRegExp|].
  intros t rest. rewrite matchAt_lit. split.
  - destruct (startsWith t w) eqn:E; [|done]. intros [= <-]. by apply startsWith_drop.
  - intros ->. by rewrite startsWith_app, drop_app_length.
Qed.

(** *** C4 *)

(** C4, as stated, fails.  A source text that already holds the text of a
    blank marker gets that text replaced by the answer as well. *)
Lemma restore_counterexample :
  let st := appState (str "**( No.1 )** cat") [str "cat"] in
  App.selections st ≠ []
  ∧ ∃ st', App.generateAndSetQuiz st = Some st'
      ∧ App.quizText st' = str "**( No.1 )** **( No.1 )**"
      ∧ restore App.blank (App.quizAnswers st') (App.quizText st') = str "cat cat"
      ∧ restore App.blank (App.quizAnswers st') (App.quizText st') ≠ App.markdown st.
Proof.
  split; [done|]. eexists. split; [reflexivity|].
  split_and!; [reflexivity | reflexivity | discriminate].
Qed.

(** C4, amended.  For a non-empty selection of non-empty targets none of
    which can overlap the marker of a target selected before it, and a
    source text that holds none of the labels [( No.1 )], ..., [( No.n )]
    of the [n] blanks handed out, putting the answer words back in place
    of their markers, one number at a time and in whatever order, gives
    the source text back.  What a target that overlaps an earlier marker
    leads to is not part of the statement. *)
Theorem restore_generated :
  (∀ st : App.State,
     App.selections st ≠ [] →
     nonemptyTargets (App.selections st) →
     clearOfEarlier (λ n _, App.blank n) 1 (App.selections st) = true →
     (∀ j, (1 ≤ j ≤ N.of_nat (length (App.selections st)))%N →
           strIncludes (App.markdown st) (label j) = false) →
     ∃ st', App.generateAndSetQuiz st = Some st'
       ∧ ∀ order, order ≡ₚ App.quizAnswers st' →
           restore App.blank order (App.quizText st') = App.markdown st)
  ∧ (∀ st : AppTs.State,
     AppTs.selections st ≠ [] →
     nonemptyTargets (AppTs.selections st) →
     clearOfEarlier (λ n _, AppTs.blank n) 1 (AppTs.selections st) = true →
     (∀ j, (1 ≤ j ≤ N.of_nat (length (AppTs.selections st)))%N →
           strIncludes (AppTs.markdown st) (label j) = false) →
     ∃ st', AppTs.generateAndSetQuiz st = Some st'
       ∧ ∀ order, order ≡ₚ AppTs.quizAnswers st' →
           restore AppTs.blank order (AppTs.quizText st') = AppTs.markdown st).
Proof.
  split; intros st Hsel Hne Hclear Hfree; eexists.
  - split; [by apply App_generate_eq|].
    cbn [App.quizText App.quizAnswers]. intros order Hperm.
    apply (restore_any_order App.blank (str "**") (str "**") (str "*") (ch "*")
             App_blank_shape eq_refl) with (ws := App.selections st) (k := 1%N);
      [intros k; by apply cu_in_label | done | done | | done |].
    + apply seqReplace_whole; [done | intros; apply App_blank_plain | done].
    + intros j Hj. apply Hfree. lia.
  - split; [by apply AppTs_generate_eq|].
    cbn [AppTs.quizText AppTs.quizAnswers]. intros order Hperm.
    apply (restore_any_order AppTs.blank spanOpen (str " </span>") (tail spanOpen)
             (ch "<") AppTs_blank_shape eq_refl)
      with (ws := AppTs.selections st) (k := 1%N);
      [intros k; by apply cu_in_label | done | done | | done |].
    + apply seqReplace_whole; [done | intros; apply AppTs_blank_plain | done].
    + intros j Hj. apply Hfree. lia.
Qed.

Lemma restore_generated_witness :
  let st := appState (str "cat No") [str "No"; str "cat"] in
  App.selections st ≠ []
  ∧ nonemptyTargets (App.selections st)
  ∧ clearOfEarlier (λ n _, App.blank n) 1 (App.selections st) = true
  ∧ (∀ j, (1 ≤ j ≤ N.of_nat (length (App.selections st)))%N →
          strIncludes (App.markdown st) (label j) = false)
  ∧ ∃ st', App.generateAndSetQuiz st = Some st'
      ∧ App.quizText st' = str "**( No.2 )** **( No.1 )**"
      ∧ ∀ order, order ≡ₚ App.quizAnswers st' →
          restore App.blank order (App.quizText st') = App.markdown st.
Proof.
  assert (nonemptyTargets [str "No"; str "cat"]) as Hne.
  { intros w [->|[->|[]%elem_of_nil]%elem_of_cons]%elem_of_cons; done. }
  assert (clearOfEarlier (λ n _, App.blank n) 1 [str "No"; str "cat"] = true)
    as Hclear by reflexivity.
  assert (∀ j, (1 ≤ j ≤ 2)%N → strIncludes (str "cat No") (label j) = false)
    as Hfree.
  { intros j Hj. assert ((j = 1)%N ∨ (j = 2)%N) as [-> | ->] by lia; reflexivity. }
  split; [done|]. split; [exact Hne|]. split; [exact Hclear|]. split; [exact Hfree|].
  destruct (proj1 restore_generated (appState (str "cat No") [str "No"; str "cat"])
              ltac:(done) Hne Hclear Hfree) as (st' & Hgen & Hres).
  exists st'. split; [exact Hgen|]. split; [|exact Hres].
  assert (Some st' = App.generateAndSetQuiz
                       (appState (str "cat No") [str "No"; str "cat"])) as E
    by (by rewrite Hgen).
  vm_compute in E. by injection E as ->.
Defined.

Example restore_interfering_targets :
  let st := appState (str "cat No") [str "cat"; str "No"] in
  ∃ st', App.generateAndSetQuiz st = Some st'
    ∧ restore App.blank (App.quizAnswers st') (App.quizText st') = str "cat No".
Proof. eexists. split; reflexivity. Qed.

(** With the targets selected the other way round, [No] overlaps the
    marker written for [cat]; the quiz text of C1 comes back only when
    the words are put back from the highest number down
    ([restore_interfering_targets]), not in the order of the answer
    key. *)
Example restore_ascending_fails :
  let st := appState (str "cat No") [str "cat"; str "No"] in
  ∃ st', App.generateAndSetQuiz st = Some st'
    ∧ foldr (fillBlank App.blank) (App.quizText st') (rev (App.quizAnswers st'))
      = str "**( No.1 )** No".
Proof. eexists. split; reflexivity. Qed.

(** *** C5 *)

(** C5.  With an empty selection set, [generateAndSetQuiz] and [createQuiz]
    return normally and leave the whole state, the previous quiz text and
    answer list included, as it was. *)
Theorem generate_empty_selection_noop :
  (∀ st : App.State, App.selections st = [] → App.generateAndSetQuiz st = Some st)
  ∧ (∀ st : AppTs.State, AppTs.selections st = [] → AppTs.generateAndSetQuiz st = Some st)
  ∧ (∀ st : Editor.State, Editor.selections st = [] → Editor.createQuiz st = Some st).
Proof.
  split_and!; intros st Hsel.
  - unfold App.generateAndSetQuiz. by rewrite Hsel.
  - unfold AppTs.generateAndSetQuiz. by rewrite Hsel.
  - unfold Editor.createQuiz. by rewrite Hsel.
Qed.

Lemma generate_empty_selection_noop_witness :
  let st := {| App.viewMode := quiz; App.markdown := str "cat cat dog";
               App.quizText := str "**( No.1 )** **( No.1 )** dog";
               App.selections := [];
               App.quizAnswers := [{| number := 1; word := str "cat" |}] |} in
  App.selections st = [] ∧ App.generateAndSetQuiz st = Some st.
Proof.
  split; [reflexivity|].
  by apply (proj1 generate_empty_selection_noop).
Defined.

(** *** C6 *)

(** A click on a highlight removes the clicked text from the selection
    set, whatever else the set holds. *)
Lemma click_removes_payload (e : ClickTarget) (st : App.State) :
  App.viewMode st = select → tagName e = str "MARK" → innerText e ≠ [] →
  (innerText e ∉ App.selections (App.handlePreviewClick e st))
  ∧ ∀ u, u ≠ innerText e →
      (u ∈ App.selections (App.handlePreviewClick e st) ↔ u ∈ App.selections st).
Proof.
  intros Hmode Htag Hword. unfold App.handlePreviewClick.
  rewrite Hmode, Htag. unfold jsstring_eqb. rewrite bool_decide_eq_true_2 by done.
  destruct (innerText e) as [|c word] eqn:E; [done|].
  cbn [App.selections App.setSelections].
  split; [apply Set_delete_gone | intros u Hu; by apply Set_delete_other].
Qed.

(** For a target without a dollar sign the wrapper holds the target as it
    was selected. *)
Lemma highlight_single_plain (md w : jsstring) :
  w ≠ [] → cu_in DOLLAR w = false →
  ∃ marked,
    Pass [w] (λ _ _, markOpen ++ w ++ markClose) 0 md marked
    ∧ App.highlightedText (appState md [w]) = Some (replace newlineRe BR marked).
Proof.
  intros Hw Hplain. exists (replace (litRegex w) (markTemplate w) md). split.
  - rewrite replace_blankOut by by apply markTemplate_plain.
    by apply Pass_literal.
  - unfold App.highlightedText, Array_from.
    cbn [Set_size App.selections appState length].
    cbn [Nat.eqb forEach App.markdown]. by rewrite highlightStep_eq.
Qed.

(** C6, at an input where the code departs from it.  [highlightedText]
    splices the target into a replacement string, where [$$] stands for
    one dollar sign: the wrapper of the selected target [$$] holds [$],
    and a click on it removes [$] from the selection set, which leaves the
    set, and the highlight, as they were. *)
Theorem highlight_payload_dollar :
  let st := appState (str "a $$ b") [str "$$"] in
  App.highlightedText st
  = Some (str "a " ++ markOpen ++ str "$" ++ markClose ++ str " b")
  ∧ App.handlePreviewClick {| tagName := str "MARK"; innerText := str "$" |} st = st.
Proof. split; reflexivity. Qed.

(** *** C7 *)

(** C7.  Adding the same word twice is the same as adding it once, on the
    set and through [handleSelection]. *)
Theorem add_idempotent :
  (∀ (s : StringSet) (w : jsstring), Set_add w (Set_add w s) = Set_add w s)
  ∧ (∀ sel (st : App.State),
       App.handleSelection sel (App.handleSelection sel st) = App.handleSelection sel st)
  ∧ (∀ sel (st : AppTs.State),
       AppTs.handleSelection sel (AppTs.handleSelection sel st)
       = AppTs.handleSelection sel st)
  ∧ (∀ sel (st : Editor.State),
       Editor.handleSelection sel (Editor.handleSelection sel st)
       = Editor.handleSelection sel st).
Proof.
  split_and!.
  - intros s w. apply Set_add_idem.
  - intros sel st. unfold App.handleSelection.
    destruct (App.viewMode st) eqn:Hm; [|by rewrite Hm].
    destruct (trim sel) as [|c s] eqn:E; [by rewrite Hm|].
    cbn [App.viewMode App.setSelections]. rewrite Hm.
    unfold App.setSelections. cbn. by rewrite Set_add_idem.
  - intros sel st. unfold AppTs.handleSelection.
    destruct (AppTs.viewMode st) eqn:Hm; [|by rewrite Hm].
    destruct sel as [sel|]; cbn [fmap option_fmap option_map]; [|by rewrite Hm].
    destruct (trim sel) as [|c s] eqn:E; [by rewrite Hm|].
    cbn [AppTs.viewMode AppTs.setSelections]. rewrite Hm.
    unfold AppTs.setSelections. cbn. by rewrite Set_add_idem.
  - intros sel st. unfold Editor.handleSelection.
    destruct (trim sel) as [|c s] eqn:E; [done|].
    unfold Editor.setSelections. cbn. by rewrite Set_add_idem.
Qed.

(** *** C8 *)

(** C8.  A selection made of white space only, the empty one included, is
    trimmed to nothing and leaves the state as it was. *)
Theorem blank_selection_ignored (sel : jsstring) :
  Forall (λ c, isWhiteSpace c = true) sel →
  trim sel = []
  ∧ (∀ st, App.handleSelection sel st = st)
  ∧ (∀ st, AppTs.handleSelection (Some sel) st = st)
  ∧ (∀ st, Editor.handleSelection sel st = st).
Proof.
  intros Hws%trim_whitespace. split; [done|]. split_and!; intros st.
  - unfold App.handleSelection. rewrite Hws. by destruct (App.viewMode st).
  - unfold AppTs.handleSelection. cbn [fmap option_fmap option_map].
    rewrite Hws. by destruct (AppTs.viewMode st).
  - unfold Editor.handleSelection. by rewrite Hws.
Qed.

Lemma blank_selection_ignored_witness :
  Forall (λ c, isWhiteSpace c = true) (str "  ")
  ∧ trim (str "  ") = []
  ∧ (∀ st, App.handleSelection (str "  ") st = st)
  ∧ (∀ st, AppTs.handleSelection (Some (str "  ")) st = st)
  ∧ (∀ st, Editor.handleSelection (str "  ") st = st).
Proof.
  assert (Forall (λ c, isWhiteSpace c = true) (str "  ")) as Hws
    by (repeat constructor).
  split; [exact Hws|]. exact (blank_selection_ignored (str "  ") Hws).
Defined.

(** *** C9 *)

(** C9.  On a non-empty selection [generateAndSetQuiz] returns normally;
    the source text and the selection set (and, in the TypeScript
    component, the display mode) are as before, and the view mode is
    [quiz]. *)
Theorem generate_frame :
  (∀ st : App.State, App.selections st ≠ [] →
     ∃ st', App.generateAndSetQuiz st = Some st'
       ∧ App.markdown st' = App.markdown st
       ∧ App.selections st' = App.selections st
       ∧ App.viewMode st' = quiz)
  ∧ (∀ st : AppTs.State, AppTs.selections st ≠ [] →
     ∃ st', AppTs.generateAndSetQuiz st = Some st'
       ∧ AppTs.markdown st' = AppTs.markdown st
       ∧ AppTs.selections st' = AppTs.selections st
       ∧ AppTs.displayMode st' = AppTs.displayMode st
       ∧ AppTs.viewMode st' = quiz).
Proof.
  split; intros st Hsel; eexists.
  - split; [by apply App_generate_eq | done].
  - split; [by apply AppTs_generate_eq | done].
Qed.

Lemma generate_frame_witness :
  let st := appState (str "cat cat dog") [str "cat"] in
  App.selections st ≠ []
  ∧ ∃ st', App.generateAndSetQuiz st = Some st'
      ∧ App.markdown st' = App.markdown st
      ∧ App.selections st' = App.selections st
      ∧ App.viewMode st' = quiz.
Proof.
  split; [done|].
  apply (proj1 generate_frame (appState (str "cat cat dog") [str "cat"])). done.
Defined.

(** *** C10 *)

(** C10.  On a non-empty selection of non-empty targets [createQuiz]
    returns normally, empties the selection set and stores as the new
    source text the result of one left-to-right pass over the old one, in
    which the occurrences found are replaced by [({1})], [({2})], ... in
    the order they are met: one number per replaced occurrence, not per
    target. *)
Theorem createQuiz_numbers_occurrences (st : Editor.State) :
  Editor.selections st ≠ [] →
  nonemptyTargets (Editor.selections st) →
  ∃ st', Editor.createQuiz st = Some st'
    ∧ Editor.selections st' = []
    ∧ Pass (Editor.selections st) (λ n _, str "({" ++ toString n ++ str "})") 1
        (Editor.markdown st) (Editor.markdown st').
Proof.
  intros Hsel Hne. unfold Editor.createQuiz, Array_from.
  rewrite size_nonzero, RegExp_createQuiz by done.
  cbn [mbind option_bind]. unfold replaceWith.
  pose proof (Pass_createQuiz _ Hsel Hne (Editor.markdown st) 1%N []) as HP.
  destruct (replace_go _ _ 1%N [] 0 (Editor.markdown st)) as [n' out].
  eexists. split; [done|]. split; [done|]. exact HP.
Qed.

Lemma createQuiz_numbers_occurrences_witness :
  let st := editorState (str "cat cat dog") [str "cat"] in
  Editor.selections st ≠ []
  ∧ nonemptyTargets (Editor.selections st)
  ∧ ∃ st', Editor.createQuiz st = Some st'
      ∧ Editor.selections st' = []
      ∧ Pass (Editor.selections st) (λ n _, str "({" ++ toString n ++ str "})") 1
          (Editor.markdown st) (Editor.markdown st').
Proof.
  assert (nonemptyTargets [str "cat"]) as Hne by (by apply nonemptyTargets_singleton).
  split; [done|]. split; [exact Hne|].
  apply (createQuiz_numbers_occurrences (editorState (str "cat cat dog") [str "cat"]));
    [done | exact Hne].
Defined.

Example createQuiz_cat_cat_dog :
  Editor.createQuiz (editorState (str "cat cat dog") [str "cat"])
  = Some (editorState (str "({1}) ({2}) dog") []).
Proof. reflexivity. Qed.

(** ** Further properties *)

(** *** White space and [trim] *)

Lemma trimStart_length s : length (trimStart s) ≤ length s.
Proof.
  induction s as [|c s IH]; simpl; [done|].
  destruct (isWhiteSpace c); simpl; lia.
Qed.

Lemma trimStart_idem s : trimStart (trimStart s) = trimStart s.
Proof.
  induction s as [|c s IH]; simpl; [done|].
  destruct (isWhiteSpace c) eqn:E; [done|]. simpl. by rewrite E.
Qed.

Lemma trimStart_fixed_head c s : trimStart (c :: s) = c :: s → isWhiteSpace c = false.
Proof.
  simpl. destruct (isWhiteSpace c); [|done]. intros H.
  pose proof (trimStart_length s) as Hl. rewrite H in Hl. simpl in Hl. lia.
Qed.

Lemma trimStart_suffix s :
  ∃ a, s = a ++ trimStart s ∧ Forall (λ c, isWhiteSpace c = true) a.
Proof.
  induction s as [|c s (a & Ha & Hws)]; simpl; [by exists []|].
  destruct (isWhiteSpace c) eqn:E; [|by exists []].
  exists (c :: a). split; [by rewrite Ha at 1 | by constructor].
Qed.

Lemma trimEnd_prefix s :
  ∃ b, s = trimEnd s ++ b ∧ Forall (λ c, isWhiteSpace c = true) b.
Proof.
  unfold trimEnd. destruct (trimStart_suffix (rev s)) as (a & Ha & Hws).
  exists (rev a). split; [|by apply Forall_rev].
  by rewrite <- rev_app_distr, <- Ha, rev_involutive.
Qed.

Lemma trimEnd_idem s : trimEnd (trimEnd s) = trimEnd s.
Proof. unfold trimEnd. by rewrite rev_involutive, trimStart_idem. Qed.

Lemma trimStart_trimEnd s : trimStart s = s → trimStart (trimEnd s) = trimEnd s.
Proof.
  intros Hs. destruct (trimEnd_prefix s) as (b & Hb & _).
  destruct (trimEnd s) as [|c r] eqn:E; [done|].
  rewrite Hb in Hs. apply trimStart_fixed_head in Hs. simpl. by rewrite Hs.
Qed.

Lemma trim_idem s : trim (trim s) = trim s.
Proof.
  unfold trim. rewrite trimStart_trimEnd by apply trimStart_idem.
  apply trimEnd_idem.
Qed.

Lemma trimStart_nonblank s :
  Exists (λ c, isWhiteSpace c = false) s →
  ∃ c r, trimStart s = c :: r ∧ isWhiteSpace c = false.
Proof.
  induction s as [|c s IH]; intros Hex; [by apply Exists_nil in Hex|].
  simpl. destruct (isWhiteSpace c) eqn:E; [|by exists c, s].
  apply Exists_cons in Hex as [Hc|Hs]; [congruence | by apply IH].
Qed.

Lemma trim_nonblank s : Exists (λ c, isWhiteSpace c = false) s → trim s ≠ [].
Proof.
  intros (c & r & Hs & Hc)%trimStart_nonblank. unfold trim, trimEnd. rewrite Hs.
  destruct (trimStart_nonblank (rev (c :: r))) as (c' & r' & Hr & _).
  { apply Exists_exists. exists c. split; [|done].
    simpl. apply elem_of_app. right. by left. }
  rewrite Hr. intros H%(f_equal (@length cu)).
  rewrite length_rev in H. done.
Qed.

(** *** Exceptions that escape the handlers *)

Lemma App_generate_total st : is_Some (App.generateAndSetQuiz st).
Proof.
  destruct (App.selections st) as [|w ws] eqn:E.
  - unfold App.generateAndSetQuiz. by rewrite E.
  - by rewrite App_generate_eq by by rewrite E.
Qed.

Lemma AppTs_generate_total st : is_Some (AppTs.generateAndSetQuiz st).
Proof.
  destruct (AppTs.selections st) as [|w ws] eqn:E.
  - unfold AppTs.generateAndSetQuiz. by rewrite E.
  - by rewrite AppTs_generate_eq by by rewrite E.
Qed.

Lemma Editor_createQuiz_eq st :
  Editor.selections st ≠ [] →
  Editor.createQuiz st
  = Some {| Editor.markdown :=
              snd (replaceWith (RSeq (RGroup (altRegex (Editor.selections st))) REmpty)
                     (Editor.replacer (Editor.selections st)) 1%N (Editor.markdown st));
            Editor.selections := [] |}.
Proof.
  intros Hsel. unfold Editor.createQuiz, Array_from.
  rewrite size_nonzero, RegExp_createQuiz by done. cbn [mbind option_bind].
  by destruct (replaceWith _ _ _ _).
Qed.

Lemma Editor_createQuiz_total st : is_Some (Editor.createQuiz st).
Proof.
  destruct (Editor.selections st) as [|w ws] eqn:E.
  - unfold Editor.createQuiz. by rewrite E.
  - by rewrite Editor_createQuiz_eq by by rewrite E.
Qed.

Lemma AppTs_run_total evs st : is_Some (runEvents AppTs.dispatch evs st).
Proof.
  revert st. induction evs as [|ev evs IH]; intros st; [done|].
  cbn [runEvents].
  assert (is_Some (AppTs.dispatch ev st)) as [st1 ->]; [|apply IH].
  destruct ev; cbn [AppTs.dispatch]; try done. apply AppTs_generate_total.
Qed.

Lemma Editor_run_total evs st :
  Forall (λ ev, ev ≠ Editor.MouseUp None) evs →
  is_Some (runEvents Editor.dispatch evs st).
Proof.
  intros Hevs. revert st. induction Hevs as [|ev evs Hev _ IH]; intros st; [done|].
  cbn [runEvents].
  assert (is_Some (Editor.dispatch ev st)) as [st1 ->]; [|apply IH].
  destruct ev as [[sel|]| | |]; cbn [Editor.dispatch]; try done.
  apply Editor_createQuiz_total.
Qed.

(** X1.  The only exception a handler lets escape is the TypeError of
    [window.getSelection().toString()] on a [null] selection object: in
    [App] while in select mode, in [Editor] always, in the TypeScript
    component (which reads it through [?.]) never.  Every other run of
    events ends in a state, and every render of the preview gives a text:
    the patterns handed to [new RegExp] always compile.  The regular
    expressions are those of the ECMAScript grammar, which bounds neither
    the length of a pattern nor the search of the matcher; a limit that an
    engine puts on either is not part of this model. *)
Theorem handlers_throw_only_on_null_selection :
  (∀ evs st, Forall (λ ev, ev ≠ App.MouseUp None) evs →
     is_Some (runEvents App.dispatch evs st))
  ∧ (∀ st, App.dispatch (App.MouseUp None) st = None ↔ App.viewMode st = select)
  ∧ (∀ evs st, is_Some (runEvents AppTs.dispatch evs st))
  ∧ (∀ evs st, Forall (λ ev, ev ≠ Editor.MouseUp None) evs →
     is_Some (runEvents Editor.dispatch evs st))
  ∧ (∀ st, Editor.dispatch (Editor.MouseUp None) st = None)
  ∧ (∀ st, is_Some (App.previewContent st))
  ∧ (∀ st, is_Some (AppTs.previewContent st))
  ∧ (∀ st, is_Some (Editor.highlightedText st)).
Proof.
  split_and!.
  - intros evs st. apply App_run_total.
  - intros st. cbn [App.dispatch]. by destruct (App.viewMode st).
  - apply AppTs_run_total.
  - intros evs st. apply Editor_run_total.
  - done.
  - intros st. unfold App.previewContent, App.highlightedText, Array_from.
    destruct (App.viewMode st); [|done].
    destruct (Set_size _ =? 0); [done|]. by rewrite (forEach_highlightStep _ _ 1).
  - intros st. unfold AppTs.previewContent, AppTs.highlightedText, Array_from.
    destruct (AppTs.viewMode st); [|done].
    destruct (Set_size _ =? 0); [done|]. by rewrite (forEach_highlightStep _ _ 1).
  - intros st. unfold Editor.highlightedText, Array_from.
    destruct (Set_size _ =? 0); [done|]. by rewrite (forEach_highlightStep _ _ 1).
Qed.

Lemma handlers_throw_only_on_null_selection_witness :
  let evs := [App.Change (str "cat No"); App.MouseUp (Some (str "cat"));
              App.MouseUp (Some (str "No")); App.QuizModeButton; App.MouseUp (Some (str "x"));
              App.SelectModeButton;
              App.Click {| tagName := str "MARK"; innerText := str "cat" |}] in
  Forall (λ ev, ev ≠ App.MouseUp None) evs
  ∧ is_Some (runEvents App.dispatch evs App.initial)
  ∧ runEvents App.dispatch (evs ++ [App.MouseUp None]) App.initial = None.
Proof.
  assert (Forall (λ ev, ev ≠ App.MouseUp None)
            [App.Change (str "cat No"); App.MouseUp (Some (str "cat"));
             App.MouseUp (Some (str "No")); App.QuizModeButton;
             App.MouseUp (Some (str "x")); App.SelectModeButton;
             App.Click {| tagName := str "MARK"; innerText := str "cat" |}]) as Hevs
    by (repeat constructor; discriminate).
  split; [exact Hevs|]. split; [|reflexivity].
  exact (proj1 handlers_throw_only_on_null_selection _ App.initial Hevs).
Defined.

(** *** The selection set in every reachable state *)

Lemma trimmedTargets_add w s :
  trim w = w → trimmedTargets s → trimmedTargets (Set_add w s).
Proof. intros Hw Hs u [->|Hu]%Set_add_elem; [done | by apply Hs]. Qed.

Lemma trimmedTargets_delete w s : trimmedTargets s → trimmedTargets (Set_delete w s).
Proof.
  intros Hs u Hu. apply Hs. unfold Set_delete in Hu.
  by apply list_elem_of_filter in Hu as [_ ?].
Qed.

Lemma App_run_trimmed evs st st' :
  trimmedTargets (App.selections st) → runEvents App.dispatch evs st = Some st' →
  trimmedTargets (App.selections st').
Proof.
  revert st. induction evs as [|ev evs IH]; intros st Hs; [by intros [= <-]|].
  cbn [runEvents]. destruct (App.dispatch ev st) as [st1|] eqn:E; [|done].
  cbn [mbind option_bind]. apply IH.
  destruct ev as [[selection|]| | | |]; cbn [App.dispatch] in E;
    try (injection E as <-); try done.
  - unfold App.handleSelection. destruct (App.viewMode st); [|done].
    destruct (trim selection) as [|c s] eqn:Et; [done|]. simpl.
    apply trimmedTargets_add; [|done]. rewrite <- Et. apply trim_idem.
  - destruct (App.viewMode st); [done|]. by injection E as <-.
  - unfold App.handlePreviewClick. destruct (App.viewMode st); [|done].
    destruct (jsstring_eqb _ _); [|done].
    destruct (innerText target); [done|]. simpl. by apply trimmedTargets_delete.
  - by rewrite (App_generate_selections _ _ E).
Qed.

Lemma AppTs_run_trimmed evs st st' :
  trimmedTargets (AppTs.selections st) → runEvents AppTs.dispatch evs st = Some st' →
  trimmedTargets (AppTs.selections st').
Proof.
  revert st. induction evs as [|ev evs IH]; intros st Hs; [by intros [= <-]|].
  cbn [runEvents]. destruct (AppTs.dispatch ev st) as [st1|] eqn:E; [|done].
  cbn [mbind option_bind]. apply IH.
  destruct ev; cbn [AppTs.dispatch] in E; try (injection E as <-); try done.
  - unfold AppTs.handleSelection. destruct (AppTs.viewMode st); [|done].
    destruct selection as [sel|]; [|done]. cbn [fmap option_fmap option_map].
    destruct (trim sel) as [|c s] eqn:Et; [done|]. simpl.
    apply trimmedTargets_add; [|done]. rewrite <- Et. apply trim_idem.
  - unfold AppTs.handlePreviewClick. destruct (AppTs.viewMode st); [|done].
    destruct (jsstring_eqb _ _); [|done].
    destruct (innerText target); [done|]. simpl. by apply trimmedTargets_delete.
  - by rewrite (AppTs_generate_selections _ _ E).
Qed.

Lemma Editor_run_trimmed evs st st' :
  trimmedTargets (Editor.selections st) → runEvents Editor.dispatch evs st = Some st' →
  trimmedTargets (Editor.selections st').
Proof.
  revert st. induction evs as [|ev evs IH]; intros st Hs; [by intros [= <-]|].
  cbn [runEvents]. destruct (Editor.dispatch ev st) as [st1|] eqn:E; [|done].
  cbn [mbind option_bind]. apply IH.
  destruct ev as [[selection|]| | |]; cbn [Editor.dispatch] in E;
    try (injection E as <-); try done.
  - unfold Editor.handleSelection.
    destruct (trim selection) as [|c s] eqn:Et; [done|]. simpl.
    apply trimmedTargets_add; [|done]. rewrite <- Et. apply trim_idem.
  - unfold Editor.handlePreviewClick.
    destruct (jsstring_eqb _ _); [|done].
    destruct (innerText target); [done|]. simpl. by apply trimmedTargets_delete.
  - destruct (Editor.selections st) as [|w ws] eqn:Es.
    + unfold Editor.createQuiz in E. rewrite Es in E. injection E as <-. by rewrite Es.
    + rewrite Editor_createQuiz_eq in E by by rewrite Es. injection E as <-.
      by intros u ?%elem_of_nil.
Qed.

(** X2.  Whatever the user does from the initial state, in each component the
    selection set holds pairwise distinct targets, none of them empty and
    none with white space at either end. *)
Theorem reachable_selections_clean :
  (∀ evs st, runEvents App.dispatch evs App.initial = Some st →
     NoDup (App.selections st) ∧ nonemptyTargets (App.selections st)
     ∧ trimmedTargets (App.selections st))
  ∧ (∀ evs st, runEvents AppTs.dispatch evs AppTs.initial = Some st →
     NoDup (AppTs.selections st) ∧ nonemptyTargets (AppTs.selections st)
     ∧ trimmedTargets (AppTs.selections st))
  ∧ (∀ evs st, runEvents Editor.dispatch evs Editor.initial = Some st →
     NoDup (Editor.selections st) ∧ nonemptyTargets (Editor.selections st)
     ∧ trimmedTargets (Editor.selections st)).
Proof.
  split_and!; intros evs st Hrun.
  - destruct (App_reachable_wf _ _ Hrun) as [Hd Hn]. split_and!; [done..|].
    eapply App_run_trimmed; [|done]. by intros u ?%elem_of_nil.
  - destruct (AppTs_reachable_wf _ _ Hrun) as [Hd Hn]. split_and!; [done..|].
    eapply AppTs_run_trimmed; [|done]. by intros u ?%elem_of_nil.
  - destruct (Editor_reachable_wf _ _ Hrun) as [Hd Hn]. split_and!; [done..|].
    eapply Editor_run_trimmed; [|done]. by intros u ?%elem_of_nil.
Qed.

Lemma reachable_selections_clean_witness :
  let evs := [App.Change (str "cat cat dog"); App.MouseUp (Some (str " cat "));
              App.MouseUp (Some (str "dog")); App.MouseUp (Some (str "cat"))] in
  let st := appState (str "cat cat dog") [str "cat"; str "dog"] in
  runEvents App.dispatch evs App.initial = Some st
  ∧ NoDup (App.selections st) ∧ nonemptyTargets (App.selections st)
  ∧ trimmedTargets (App.selections st).
Proof.
  assert (runEvents App.dispatch
            [App.Change (str "cat cat dog"); App.MouseUp (Some (str " cat "));
             App.MouseUp (Some (str "dog")); App.MouseUp (Some (str "cat"))] App.initial
          = Some (appState (str "cat cat dog") [str "cat"; str "dog"])) as Hrun
    by reflexivity.
  split; [exact Hrun|].
  exact (proj1 reachable_selections_clean _ _ Hrun).
Defined.

(** *** Selecting and deselecting *)

(** X3.  In select mode a selection with at least one code unit that is not
    white space ends up in the selection set, stripped of the white space
    around it; [Editor] does so in any state. *)
Theorem nonblank_selection_added (sel : jsstring) :
  Exists (λ c, isWhiteSpace c = false) sel →
  trim sel ≠ []
  ∧ (∀ st, App.viewMode st = select →
       trim sel ∈ App.selections (App.handleSelection sel st))
  ∧ (∀ st, AppTs.viewMode st = select →
       trim sel ∈ AppTs.selections (AppTs.handleSelection (Some sel) st))
  ∧ (∀ st, trim sel ∈ Editor.selections (Editor.handleSelection sel st)).
Proof.
  intros Hne%trim_nonblank. split; [done|]. split_and!.
  - intros st Hm. unfold App.handleSelection. rewrite Hm.
    destruct (trim sel) as [|c s] eqn:E; [done|]. simpl.
    apply Set_add_elem. by left.
  - intros st Hm. unfold AppTs.handleSelection. rewrite Hm.
    cbn [fmap option_fmap option_map].
    destruct (trim sel) as [|c s] eqn:E; [done|]. simpl.
    apply Set_add_elem. by left.
  - intros st. unfold Editor.handleSelection.
    destruct (trim sel) as [|c s] eqn:E; [done|]. simpl.
    apply Set_add_elem. by left.
Qed.

Lemma nonblank_selection_added_witness :
  Exists (λ c, isWhiteSpace c = false) (str " cat ")
  ∧ trim (str " cat ") = str "cat"
  ∧ (∀ st, trim (str " cat ")
           ∈ Editor.selections (Editor.handleSelection (str " cat ") st)).
Proof.
  assert (Exists (λ c, isWhiteSpace c = false) (str " cat ")) as Hex
    by (right; by left).
  split; [exact Hex|]. split; [reflexivity|].
  apply (nonblank_selection_added (str " cat ") Hex).
Defined.

Lemma Set_delete_add_fresh w (s : StringSet) : w ∉ s → Set_delete w (Set_add w s) = s.
Proof.
  intros Hw. unfold Set_add, Set_delete, StringSet in *.
  rewrite decide_False by done. rewrite filter_app. cbn [filter list_filter]. rewrite decide_False by (by intros ?).
  rewrite app_nil_r. induction s as [|x s IH]; [done|].
  apply not_elem_of_cons in Hw as [Hx Hs]. cbn [filter list_filter].
  rewrite decide_True by done. f_equal. by apply IH.
Qed.

Lemma Set_delete_absent w (s : StringSet) : w ∉ s → Set_delete w s = s.
Proof.
  intros Hw. unfold Set_delete, StringSet in *. induction s as [|x s IH]; [done|].
  apply not_elem_of_cons in Hw as [Hx Hs]. cbn [filter list_filter].
  rewrite decide_True by done. f_equal. by apply IH.
Qed.

(** X4.  Selecting a text that was not selected yet and then clicking one of
    its highlights, whose payload is the trimmed selection, gives back the
    state before the selection, order of the other targets included. *)
Theorem select_then_click_undoes (sel : jsstring) :
  trim sel ≠ [] →
  let e := {| tagName := str "MARK"; innerText := trim sel |} in
  (∀ st, App.viewMode st = select → trim sel ∉ App.selections st →
     App.handlePreviewClick e (App.handleSelection sel st) = st)
  ∧ (∀ st, AppTs.viewMode st = select → trim sel ∉ AppTs.selections st →
     AppTs.handlePreviewClick e (AppTs.handleSelection (Some sel) st) = st)
  ∧ (∀ st, trim sel ∉ Editor.selections st →
     Editor.handlePreviewClick e (Editor.handleSelection sel st) = st).
Proof.
  intros Hne e. split_and!.
  - intros [m md q s a] Hm Hnew. simpl in *. subst m.
    unfold App.handleSelection, App.handlePreviewClick, App.setSelections.
    cbn [App.viewMode]. destruct (trim sel) as [|c r] eqn:E; [done|].
    cbn [App.viewMode App.selections App.markdown App.quizText App.quizAnswers
         tagName innerText e].
    change (jsstring_eqb (str "MARK") (str "MARK")) with true. cbv iota.
    by rewrite Set_delete_add_fresh.
  - intros [d m md q s a] Hm Hnew. simpl in *. subst m.
    unfold AppTs.handleSelection, AppTs.handlePreviewClick, AppTs.setSelections.
    cbn [AppTs.viewMode fmap option_fmap option_map].
    destruct (trim sel) as [|c r] eqn:E; [done|].
    cbn [AppTs.viewMode AppTs.selections AppTs.markdown AppTs.quizText
         AppTs.quizAnswers AppTs.displayMode tagName innerText e].
    change (jsstring_eqb (str "MARK") (str "MARK")) with true. cbv iota.
    by rewrite Set_delete_add_fresh.
  - intros [md s] Hnew. simpl in *.
    unfold Editor.handleSelection, Editor.handlePreviewClick, Editor.setSelections.
    destruct (trim sel) as [|c r] eqn:E; [done|].
    cbn [Editor.selections Editor.markdown tagName innerText e].
    change (jsstring_eqb (str "MARK") (str "MARK")) with true. cbv iota.
    by rewrite Set_delete_add_fresh.
Qed.

Lemma select_then_click_undoes_witness :
  let st := editorState (str "cat cat dog") [str "dog"] in
  trim (str " cat ") ≠ []
  ∧ (trim (str " cat ") ∉ Editor.selections st)
  ∧ Editor.handlePreviewClick {| tagName := str "MARK"; innerText := trim (str " cat ") |}
      (Editor.handleSelection (str " cat ") st) = st.
Proof.
  assert (trim (str " cat ") ≠ []) as Hne by done.
  assert (trim (str " cat ") ∉ [str "dog"]) as Hnew.
  { intros H%list_elem_of_singleton. vm_compute in H. discriminate. }
  split; [exact Hne|]. split; [exact Hnew|].
  apply (proj2 (proj2 (select_then_click_undoes (str " cat ") Hne))). exact Hnew.
Defined.

Lemma Set_add_prefix w (s : StringSet) : s `prefix_of` Set_add w s.
Proof.
  unfold Set_add. destruct (decide (w ∈ s)); [done | by apply prefix_app_r].
Qed.

Lemma Set_add_length w (s : StringSet) : length (Set_add w s) ≤ S (length s).
Proof.
  unfold Set_add. destruct (decide (w ∈ s)); [lia|]. rewrite length_app. simpl. lia.
Qed.

Lemma App_handleSelection_prefix sel st :
  App.selections st `prefix_of` App.selections (App.handleSelection sel st).
Proof.
  unfold App.handleSelection. destruct (App.viewMode st); [|done].
  destruct (trim sel); [done|]. apply Set_add_prefix.
Qed.

(** X5.  A selection only ever appends one target behind the ones already
    there, and a click only ever takes targets out, keeping the order of
    the rest; neither touches the text, the quiz or the mode. *)
Theorem selection_events_frame :
  (∀ sel st,
     App.selections st `prefix_of` App.selections (App.handleSelection sel st)
     ∧ length (App.selections (App.handleSelection sel st))
       ≤ S (length (App.selections st))
     ∧ App.markdown (App.handleSelection sel st) = App.markdown st
     ∧ App.quizText (App.handleSelection sel st) = App.quizText st
     ∧ App.quizAnswers (App.handleSelection sel st) = App.quizAnswers st
     ∧ App.viewMode (App.handleSelection sel st) = App.viewMode st)
  ∧ (∀ e st,
     App.selections (App.handlePreviewClick e st) `sublist_of` App.selections st
     ∧ (∀ u, u ≠ innerText e → u ∈ App.selections st →
          u ∈ App.selections (App.handlePreviewClick e st))
     ∧ App.markdown (App.handlePreviewClick e st) = App.markdown st
     ∧ App.quizText (App.handlePreviewClick e st) = App.quizText st
     ∧ App.quizAnswers (App.handlePreviewClick e st) = App.quizAnswers st
     ∧ App.viewMode (App.handlePreviewClick e st) = App.viewMode st).
Proof.
  split.
  - intros sel st. unfold App.handleSelection.
    destruct (App.viewMode st) eqn:Hm; [|split_and!; done || lia].
    destruct (trim sel) as [|c s] eqn:E; [split_and!; done || lia|].
    cbn. split_and!; try done; [apply Set_add_prefix | apply Set_add_length].
  - intros e st. unfold App.handlePreviewClick.
    destruct (App.viewMode st) eqn:Hm; [|by split_and!].
    destruct (jsstring_eqb _ _); [|by split_and!].
    destruct (innerText e) as [|c w] eqn:E; [by split_and!|].
    cbn. split_and!; try done.
    + apply sublist_filter.
    + intros u Hu Hin. by apply Set_delete_other.
Qed.

Lemma selection_events_frame_witness :
  let e := {| tagName := str "MARK"; innerText := str "cat" |} in
  let st := appState (str "cat cat dog") [str "cat"; str "dog"] in
  str "dog" ≠ innerText e ∧ str "dog" ∈ App.selections st
  ∧ str "dog" ∈ App.selections (App.handlePreviewClick e st).
Proof.
  assert (str "dog" ≠ str "cat") as Hne by discriminate.
  assert (str "dog" ∈ [str "cat"; str "dog"]) as Hin by (right; left).
  split; [exact Hne|]. split; [exact Hin|].
  exact (proj1 (proj2 (proj2 selection_events_frame
           {| tagName := str "MARK"; innerText := str "cat" |}
           (appState (str "cat cat dog") [str "cat"; str "dog"])))
           (str "dog") Hne Hin).
Defined.

(** *** Numbering when targets are added *)

Lemma numbered_app k s t :
  numbered k (s ++ t) = numbered k s ++ numbered (k + N.of_nat (length s)) t.
Proof.
  revert k. induction s as [|w s IH]; intros k; simpl.
  - by rewrite N.add_0_r.
  - rewrite IH. do 3 f_equal. lia.
Qed.

Lemma numbered_prefix k s s' : s `prefix_of` s' → numbered k s `prefix_of` numbered k s'.
Proof. intros [t ->]. rewrite numbered_app. by apply prefix_app_r. Qed.

(** X6.  Selecting one more target leaves the numbers of the targets selected
    before as they were: the answer list generated before the selection is
    the beginning of the one generated after it. *)
Theorem added_target_keeps_numbers :
  (∀ sel (st : App.State), App.selections st ≠ [] →
     ∃ r r', App.generateAndSetQuiz st = Some r
       ∧ App.generateAndSetQuiz (App.handleSelection sel st) = Some r'
       ∧ App.quizAnswers r `prefix_of` App.quizAnswers r')
  ∧ (∀ sel (st : AppTs.State), AppTs.selections st ≠ [] →
     ∃ r r', AppTs.generateAndSetQuiz st = Some r
       ∧ AppTs.generateAndSetQuiz (AppTs.handleSelection sel st) = Some r'
       ∧ AppTs.quizAnswers r `prefix_of` AppTs.quizAnswers r').
Proof.
  split; intros sel st Hsel.
  - assert (App.selections st `prefix_of` App.selections (App.handleSelection sel st))
      as Hp by apply App_handleSelection_prefix.
    assert (App.selections (App.handleSelection sel st) ≠ []) as Hsel'.
    { intros H. rewrite H in Hp. by apply prefix_nil_inv in Hp. }
    do 2 eexists. split; [by apply App_generate_eq|].
    split; [by apply App_generate_eq|]. cbn. by apply numbered_prefix.
  - assert (AppTs.selections st
            `prefix_of` AppTs.selections (AppTs.handleSelection sel st)) as Hp.
    { unfold AppTs.handleSelection. destruct (AppTs.viewMode st); [|done].
      destruct sel as [sel|]; [|done]. cbn [fmap option_fmap option_map].
      destruct (trim sel); [done|]. apply Set_add_prefix. }
    assert (AppTs.selections (AppTs.handleSelection sel st) ≠ []) as Hsel'.
    { intros H. rewrite H in Hp. by apply prefix_nil_inv in Hp. }
    do 2 eexists. split; [by apply AppTs_generate_eq|].
    split; [by apply AppTs_generate_eq|]. cbn. by apply numbered_prefix.
Qed.

Lemma added_target_keeps_numbers_witness :
  let st := appState (str "The quick brown fox") [str "fox"] in
  App.selections st ≠ []
  ∧ ∃ r r', App.generateAndSetQuiz st = Some r
      ∧ App.generateAndSetQuiz (App.handleSelection (str "quick") st) = Some r'
      ∧ App.quizAnswers r `prefix_of` App.quizAnswers r'.
Proof.
  split; [done|].
  apply (proj1 added_target_keeps_numbers (str "quick")
           (appState (str "The quick brown fox") [str "fox"])).
  done.
Defined.

(** *** Generating again, and switching modes *)

(** X7.  Generating a quiz a second time changes nothing, and the quiz depends
    on the text and the picks only, not on the quiz that was there before;
    after [createQuiz] a second press does nothing either. *)
Theorem generate_again_same :
  (∀ st st', App.generateAndSetQuiz st = Some st' →
     App.generateAndSetQuiz st' = Some st')
  ∧ (∀ st st', AppTs.generateAndSetQuiz st = Some st' →
     AppTs.generateAndSetQuiz st' = Some st')
  ∧ (∀ st st', Editor.createQuiz st = Some st' → Editor.createQuiz st' = Some st')
  ∧ (∀ st1 st2 : App.State,
     App.markdown st1 = App.markdown st2 → App.selections st1 = App.selections st2 →
     App.selections st1 ≠ [] →
     App.generateAndSetQuiz st1 = App.generateAndSetQuiz st2).
Proof.
  split_and!.
  - intros st st' H. destruct (App.selections st) as [|w ws] eqn:E.
    + unfold App.generateAndSetQuiz in H. rewrite E in H. injection H as <-.
      unfold App.generateAndSetQuiz. by rewrite E.
    + rewrite App_generate_eq in H by by rewrite E. injection H as <-.
      rewrite App_generate_eq; cbn; [done | by rewrite E].
  - intros st st' H. destruct (AppTs.selections st) as [|w ws] eqn:E.
    + unfold AppTs.generateAndSetQuiz in H. rewrite E in H. injection H as <-.
      unfold AppTs.generateAndSetQuiz. by rewrite E.
    + rewrite AppTs_generate_eq in H by by rewrite E. injection H as <-.
      rewrite AppTs_generate_eq; cbn; [done | by rewrite E].
  - intros st st' H. destruct (Editor.selections st) as [|w ws] eqn:E.
    + unfold Editor.createQuiz in H. rewrite E in H. injection H as <-.
      unfold Editor.createQuiz. by rewrite E.
    + rewrite Editor_createQuiz_eq in H by by rewrite E. injection H as <-.
      reflexivity.
  - intros st1 st2 Hmd Hs Hne.
    rewrite !App_generate_eq by congruence. by rewrite Hmd, Hs.
Qed.

Lemma generate_again_same_witness :
  let st := appState (str "cat cat dog") [str "cat"] in
  let st' := {| App.viewMode := quiz; App.markdown := str "cat cat dog";
                App.quizText := str "**( No.1 )** **( No.1 )** dog";
                App.selections := [str "cat"];
                App.quizAnswers := [{| number := 1; word := str "cat" |}] |} in
  App.generateAndSetQuiz st = Some st' ∧ App.generateAndSetQuiz st' = Some st'.
Proof.
  assert (App.generateAndSetQuiz (appState (str "cat cat dog") [str "cat"])
          = Some {| App.viewMode := quiz; App.markdown := str "cat cat dog";
                    App.quizText := str "**( No.1 )** **( No.1 )** dog";
                    App.selections := [str "cat"];
                    App.quizAnswers := [{| number := 1; word := str "cat" |}] |})
    as Hgen by reflexivity.
  split; [exact Hgen|].
  exact (proj1 generate_again_same _ _ Hgen).
Defined.

(** X8.  After a quiz was generated the preview shows the quiz text, and the
    select-mode button brings back the highlighted preview of before the
    generation. *)
Theorem mode_round_trip :
  (∀ st st', App.generateAndSetQuiz st = Some st' →
     App.previewContent (App.setViewMode select st') = App.highlightedText st
     ∧ (App.selections st ≠ [] →
        App.previewContent st' = Some (replace newlineRe BR (App.quizText st'))))
  ∧ (∀ st st', AppTs.generateAndSetQuiz st = Some st' →
     AppTs.previewContent (AppTs.setViewMode select st') = AppTs.highlightedText st
     ∧ (AppTs.selections st ≠ [] →
        AppTs.previewContent st' = Some (AppTs.quizText st'))).
Proof.
  split; intros st st' H.
  - destruct (App.selections st) as [|w ws] eqn:E.
    + unfold App.generateAndSetQuiz in H. rewrite E in H. injection H as <-.
      split; [|done]. unfold App.previewContent, App.highlightedText. cbn. by rewrite E.
    + rewrite App_generate_eq in H by by rewrite E. injection H as <-.
      split; [|done]. unfold App.previewContent, App.highlightedText. cbn. by rewrite E.
  - destruct (AppTs.selections st) as [|w ws] eqn:E.
    + unfold AppTs.generateAndSetQuiz in H. rewrite E in H. injection H as <-.
      split; [|done]. unfold AppTs.previewContent, AppTs.highlightedText. cbn.
      by rewrite E.
    + rewrite AppTs_generate_eq in H by by rewrite E. injection H as <-.
      split; [|done]. unfold AppTs.previewContent, AppTs.highlightedText. cbn.
      by rewrite E.
Qed.

Lemma mode_round_trip_witness :
  let st := appState (str "cat cat dog") [str "cat"] in
  ∃ st', App.generateAndSetQuiz st = Some st'
    ∧ App.previewContent (App.setViewMode select st') = App.highlightedText st.
Proof.
  eexists. split; [reflexivity|].
  refine (proj1 (proj1 mode_round_trip
            (appState (str "cat cat dog") [str "cat"]) _ _)).
  reflexivity.
Defined.

(** X9.  While the quiz is shown, selections, clicks and edits of the text do
    not change what the preview shows, nor the picks: only the two mode
    buttons do. *)
Theorem quiz_mode_frozen (evs : list App.Event) (st : App.State) :
  App.viewMode st = quiz →
  Forall (λ ev, match ev with
                | App.MouseUp _ | App.Click _ | App.Change _ => True
                | App.SelectModeButton | App.QuizModeButton => False
                end) evs →
  ∃ st', runEvents App.dispatch evs st = Some st'
    ∧ App.viewMode st' = quiz
    ∧ App.selections st' = App.selections st
    ∧ App.quizText st' = App.quizText st
    ∧ App.quizAnswers st' = App.quizAnswers st
    ∧ App.previewContent st' = App.previewContent st.
Proof.
  intros Hm Hevs. revert st Hm.
  induction Hevs as [|ev evs Hev _ IH]; intros st Hm.
  - exists st. by split_and!.
  - assert (∃ st1, App.dispatch ev st = Some st1
              ∧ App.viewMode st1 = quiz
              ∧ App.selections st1 = App.selections st
              ∧ App.quizText st1 = App.quizText st
              ∧ App.quizAnswers st1 = App.quizAnswers st) as (st1 & Hd & Hm1 & Hs & Hq & Ha).
    { destruct ev as [[sel|]| | | |]; try done; cbn [App.dispatch];
        try rewrite Hm; eexists; (split; [done|]).
      - unfold App.handleSelection. by rewrite Hm.
      - done.
      - unfold App.handlePreviewClick. by rewrite Hm.
      - done. }
    destruct (IH st1 Hm1) as (st' & Hrun & Hm' & Hs' & Hq' & Ha' & Hp').
    exists st'. cbn [runEvents]. rewrite Hd. cbn [mbind option_bind].
    split_and!; try congruence.
    rewrite Hp'. unfold App.previewContent. by rewrite Hm1, Hm, Hq.
Qed.

Lemma quiz_mode_frozen_witness :
  let st := {| App.viewMode := quiz; App.markdown := str "cat cat dog";
               App.quizText := str "**( No.1 )** **( No.1 )** dog";
               App.selections := [str "cat"];
               App.quizAnswers := [{| number := 1; word := str "cat" |}] |} in
  let evs := [App.Change (str "a dog"); App.MouseUp (Some (str "dog"));
              App.MouseUp None;
              App.Click {| tagName := str "MARK"; innerText := str "cat" |}] in
  App.viewMode st = quiz
  ∧ ∃ st', runEvents App.dispatch evs st = Some st'
      ∧ App.viewMode st' = quiz
      ∧ App.selections st' = App.selections st
      ∧ App.quizText st' = App.quizText st
      ∧ App.quizAnswers st' = App.quizAnswers st
      ∧ App.previewContent st' = App.previewContent st.
Proof.
  split; [reflexivity|].
  apply quiz_mode_frozen; [reflexivity|]. by repeat constructor.
Defined.

(** X10.  In the TypeScript component too, while the quiz is shown, selections,
    clicks, edits of the text and layout switches change neither the
    preview nor the picks. *)
Theorem quiz_mode_frozen_ts (evs : list AppTs.Event) (st : AppTs.State) :
  AppTs.viewMode st = quiz →
  Forall (λ ev, match ev with
                | AppTs.MouseUp _ | AppTs.Click _ | AppTs.Change _
                | AppTs.Layout _ => True
                | AppTs.SelectModeButton | AppTs.QuizModeButton => False
                end) evs →
  ∃ st', runEvents AppTs.dispatch evs st = Some st'
    ∧ AppTs.viewMode st' = quiz
    ∧ AppTs.selections st' = AppTs.selections st
    ∧ AppTs.quizText st' = AppTs.quizText st
    ∧ AppTs.quizAnswers st' = AppTs.quizAnswers st
    ∧ AppTs.previewContent st' = AppTs.previewContent st.
Proof.
  intros Hm Hevs. revert st Hm.
  induction Hevs as [|ev evs Hev _ IH]; intros st Hm.
  - exists st. by split_and!.
  - assert (∃ st1, AppTs.dispatch ev st = Some st1
              ∧ AppTs.viewMode st1 = quiz
              ∧ AppTs.selections st1 = AppTs.selections st
              ∧ AppTs.quizText st1 = AppTs.quizText st
              ∧ AppTs.quizAnswers st1 = AppTs.quizAnswers st)
      as (st1 & Hd & Hm1 & Hs & Hq & Ha).
    { destruct ev; try done; cbn [AppTs.dispatch]; eexists; (split; [done|]).
      - unfold AppTs.handleSelection. by rewrite Hm.
      - unfold AppTs.handlePreviewClick. by rewrite Hm.
      - done.
      - done. }
    destruct (IH st1 Hm1) as (st' & Hrun & Hm' & Hs' & Hq' & Ha' & Hp').
    exists st'. cbn [runEvents]. rewrite Hd. cbn [mbind option_bind].
    split_and!; try congruence.
    rewrite Hp'. unfold AppTs.previewContent. by rewrite Hm1, Hm, Hq.
Qed.

Lemma quiz_mode_frozen_ts_witness :
  let st := {| AppTs.displayMode := separate; AppTs.viewMode := quiz;
               AppTs.markdown := str "cat cat dog";
               AppTs.quizText := AppTs.blank 1 ++ str " " ++ AppTs.blank 1 ++ str " dog";
               AppTs.selections := [str "cat"];
               AppTs.quizAnswers := [{| number := 1; word := str "cat" |}] |} in
  let evs := [AppTs.Change (str "a dog"); AppTs.MouseUp (Some (str "dog"));
              AppTs.Layout previewOnly] in
  AppTs.viewMode st = quiz
  ∧ ∃ st', runEvents AppTs.dispatch evs st = Some st'
      ∧ AppTs.viewMode st' = quiz
      ∧ AppTs.selections st' = AppTs.selections st
      ∧ AppTs.quizText st' = AppTs.quizText st
      ∧ AppTs.quizAnswers st' = AppTs.quizAnswers st
      ∧ AppTs.previewContent st' = AppTs.previewContent st.
Proof.
  split; [reflexivity|].
  apply quiz_mode_frozen_ts; [reflexivity|]. by repeat constructor.
Defined.

(** *** Targets that do not occur in the text *)

Lemma blankOut_absent w r t : w ≠ [] → strIncludes t w = false → blankOut w r t = t.
Proof.
  intros Hw. induction t as [|c t IH]; intros Ht; [by apply blankOut_nil|].
  rewrite blankOut_miss; [|done|by apply strIncludes_head].
  f_equal. apply IH. by eapply strIncludes_tail.
Qed.

Lemma seqReplace_absent tmpl ws :
  (∀ w, w ∈ ws → w ≠ []) →
  (∀ k w, w ∈ ws → cu_in DOLLAR (tmpl k w) = false) →
  ∀ k t, (∀ w, w ∈ ws → strIncludes t w = false) → seqReplace tmpl k ws t = t.
Proof.
  induction ws as [|w ws IH]; intros Hne Hplain k t Habs; [done|].
  cbn [seqReplace]. rewrite replace_blankOut by (apply Hplain; by left).
  rewrite blankOut_absent; [|apply Hne; by left|apply Habs; by left].
  apply IH; intros; [apply Hne | apply Hplain | apply Habs]; by right.
Qed.

Lemma firstMatch_absent ws t :
  (∀ w, w ∈ ws → startsWith t w = false) → firstMatch ws t = None.
Proof.
  induction ws as [|w ws IH]; intros Habs; [done|]. simpl.
  rewrite Habs by by left. apply IH. intros; apply Habs; by right.
Qed.

Lemma createQuiz_scan_absent ws t n b :
  ws ≠ [] → (∀ w, w ∈ ws → w ≠ []) →
  (∀ w, w ∈ ws → strIncludes t w = false) →
  replace_go (RSeq (RGroup (altRegex ws)) REmpty)
    (λ st m _ _, Editor.replacer ws st m) n b 0 t = (n, t).
Proof.
  intros Hws Hne. revert b. induction t as [|c t IH]; intros b Habs.
  - rewrite replace_go_end; [done|]. by rewrite matchAt_createQuiz, firstMatch_nil.
  - rewrite replace_go_miss.
    + rewrite IH; [done|]. intros w Hw. eapply strIncludes_tail. by apply Habs.
    + rewrite matchAt_createQuiz by done. rewrite firstMatch_absent; [done|].
      intros w Hw. by apply strIncludes_head, Habs.
Qed.

Lemma numbered_words k ws : word <$> numbered k ws = ws.
Proof.
  revert k. induction ws as [|w ws IH]; intros k; [done|]. cbn. f_equal. apply IH.
Qed.

(** X11.  Targets that no longer occur in the text, for instance after an edit,
    blank nothing: the quiz text is the source text.  [generateAndSetQuiz]
    still gives each of them a number and an answer entry, and [createQuiz]
    still clears the selection. *)
Theorem absent_targets_blank_nothing :
  (∀ st : App.State,
     App.selections st ≠ [] → nonemptyTargets (App.selections st) →
     (∀ w, w ∈ App.selections st → strIncludes (App.markdown st) w = false) →
     ∃ st', App.generateAndSetQuiz st = Some st'
       ∧ App.quizText st' = App.markdown st
       ∧ word <$> App.quizAnswers st' = App.selections st)
  ∧ (∀ st : Editor.State,
     Editor.selections st ≠ [] → nonemptyTargets (Editor.selections st) →
     (∀ w, w ∈ Editor.selections st → strIncludes (Editor.markdown st) w = false) →
     Editor.createQuiz st
     = Some {| Editor.markdown := Editor.markdown st; Editor.selections := [] |}).
Proof.
  split; intros st Hsel Hne Habs.
  - eexists. split; [by apply App_generate_eq|]. cbn. split.
    + apply seqReplace_absent; [done| |done]. intros. apply App_blank_plain.
    + apply numbered_words.
  - rewrite Editor_createQuiz_eq by done. unfold replaceWith.
    by rewrite createQuiz_scan_absent.
Qed.

Lemma absent_targets_blank_nothing_witness :
  let st := appState (str "a dog") [str "cat"] in
  App.selections st ≠ [] ∧ nonemptyTargets (App.selections st)
  ∧ (∀ w, w ∈ App.selections st → strIncludes (App.markdown st) w = false)
  ∧ ∃ st', App.generateAndSetQuiz st = Some st'
      ∧ App.quizText st' = App.markdown st
      ∧ word <$> App.quizAnswers st' = App.selections st.
Proof.
  assert (nonemptyTargets [str "cat"]) as Hne by (by apply nonemptyTargets_singleton).
  assert (∀ w, w ∈ [str "cat"] → strIncludes (str "a dog") w = false) as Habs
    by (by intros w ->%list_elem_of_singleton).
  split; [done|]. split; [exact Hne|]. split; [exact Habs|].
  apply (proj1 absent_targets_blank_nothing (appState (str "a dog") [str "cat"]));
    [done | exact Hne | exact Habs].
Defined.

(** *** Overlapping targets in [createQuiz] *)

Lemma PassFirst_createQuiz ws :
  ws ≠ [] → (∀ w, w ∈ ws → w ≠ []) →
  ∀ t n b,
    PassFirst ws Editor.blank n t
      (snd (replace_go (RSeq (RGroup (altRegex ws)) REmpty)
              (λ st m _ _, Editor.replacer ws st m) n b 0 t)).
Proof.
  intros Hws Hne.
  apply (scan_ind ws (λ t, ∀ n b, PassFirst ws _ n t _)); [done|..].
  - intros n b. rewrite replace_go_end; [constructor|].
    by rewrite matchAt_createQuiz, firstMatch_nil.
  - intros w t Hf IH n b.
    pose proof (firstMatch_Some _ _ _ Hf) as [Hin _].
    rewrite replace_go_hit.
    + unfold Editor.replacer at 1.
      rewrite (proj2 (includes_elem ws w) Hin).
      specialize (IH (n + 1)%N (b ++ w)).
      destruct (replace_go _ _ (n + 1)%N (b ++ w) 0 t) as [n' out].
      apply PassFirst_hit; [done | by apply Hne | done].
    + by apply Hne.
    + rewrite matchAt_createQuiz, Hf by done.
      cbn [fmap option_fmap option_map]. by rewrite drop_app_length.
  - intros c t Hf IH n b. rewrite replace_go_miss.
    + specialize (IH n (b ++ [c])).
      destruct (replace_go _ _ n (b ++ [c]) 0 t) as [n' out].
      by apply PassFirst_keep.
    + by rewrite matchAt_createQuiz, Hf.
Qed.

(** X12.  [createQuiz] settles overlaps by position first and insertion order
    next: the text is read once from left to right, and where several
    targets start at the same position the one selected first is the one
    replaced, even when a later one is longer. *)
Theorem createQuiz_first_selected_wins (st : Editor.State) :
  Editor.selections st ≠ [] →
  nonemptyTargets (Editor.selections st) →
  ∃ st', Editor.createQuiz st = Some st'
    ∧ PassFirst (Editor.selections st) Editor.blank 1
        (Editor.markdown st) (Editor.markdown st').
Proof.
  intros Hsel Hne. rewrite Editor_createQuiz_eq by done. eexists. split; [done|].
  cbn [Editor.markdown]. unfold replaceWith. by apply PassFirst_createQuiz.
Qed.

Lemma createQuiz_first_selected_wins_witness :
  let st := editorState (str "cat catalog") [str "cat"; str "catalog"] in
  Editor.selections st ≠ [] ∧ nonemptyTargets (Editor.selections st)
  ∧ ∃ st', Editor.createQuiz st = Some st'
      ∧ PassFirst (Editor.selections st) Editor.blank 1
          (Editor.markdown st) (Editor.markdown st').
Proof.
  assert (nonemptyTargets [str "cat"; str "catalog"]) as Hne.
  { intros w [->|[->|[]%elem_of_nil]%elem_of_cons]%elem_of_cons; done. }
  split; [done|]. split; [exact Hne|].
  apply (createQuiz_first_selected_wins
           (editorState (str "cat catalog") [str "cat"; str "catalog"]));
    [done | exact Hne].
Defined.

Example createQuiz_cat_catalog :
  Editor.createQuiz (editorState (str "cat catalog") [str "cat"; str "catalog"])
  = Some (editorState (str "({1}) ({2})alog") []).
Proof. reflexivity. Qed.

(** *** Escaping *)

Lemma litRegex_inj w1 w2 : litRegex w1 = litRegex w2 → w1 = w2.
Proof.
  revert w2. induction w1 as [|c w1 IH]; intros [|d w2]; simpl; try done.
  intros [= -> H]. f_equal. by apply IH.
Qed.

Lemma flat_map_escapeUnit_plain w :
  Forall (λ c, isSyntaxChar c = false) w → flat_map escapeUnit w = w.
Proof.
  induction 1 as [|c w Hc _ IH]; [done|]. simpl. unfold escapeUnit at 1.
  by rewrite Hc, IH.
Qed.

Lemma length_escapeRegExp_upper w : length (escapeRegExp w) ≤ 2 * length w.
Proof.
  rewrite escapeRegExp_flat_map. induction w as [|c w IH]; simpl; [lia|].
  rewrite length_app.
  assert (length (escapeUnit c) ≤ 2)
    by (unfold escapeUnit; destruct (isSyntaxChar c); simpl; lia).
  lia.
Qed.

(** X13.  The escaping expression puts one backslash in front of each of the
    fourteen syntax characters and copies every other code unit; it leaves
    a text without syntax characters as it is, at most doubles the length,
    and never maps two different texts to the same pattern. *)
Theorem escapeRegExp_spec :
  (∀ w, escapeRegExp w
        = flat_map (λ c, if cu_in c (str ".*+?^${}()|[]\") then [BACKSLASH; c] else [c]) w)
  ∧ (∀ w, Forall (λ c, cu_in c (str ".*+?^${}()|[]\") = false) w → escapeRegExp w = w)
  ∧ (∀ w, length w ≤ length (escapeRegExp w) ≤ 2 * length w)
  ∧ (∀ w1 w2, escapeRegExp w1 = escapeRegExp w2 → w1 = w2).
Proof.
  split_and!.
  - apply escapeRegExp_flat_map.
  - intros w Hw. rewrite escapeRegExp_flat_map. by apply flat_map_escapeUnit_plain.
  - intros w. split; [apply length_escapeRegExp | apply length_escapeRegExp_upper].
  - intros w1 w2 H. apply litRegex_inj.
    pose proof (RegExp_escapeRegExp w1) as H1. rewrite H, RegExp_escapeRegExp in H1.
    congruence.
Qed.

Lemma escapeRegExp_spec_witness :
  Forall (λ c, cu_in c (str ".*+?^${}()|[]\") = false) (str "cat")
  ∧ escapeRegExp (str "cat") = str "cat".
Proof.
  assert (Forall (λ c, cu_in c (str ".*+?^${}()|[]\") = false) (str "cat")) as H
    by (by repeat constructor).
  split; [exact H|].
  exact (proj1 (proj2 escapeRegExp_spec) (str "cat") H).
Defined.

(** *** Line breaks *)

Lemma replaceConst_newline r b t :
  replaceConst newlineRe r b t = flat_map (λ c, if (c =? LF)%N then r else [c]) t.
Proof.
  revert b. induction t as [|c t IH]; intros b; [done|].
  cbn [flat_map]. rewrite <- (IH (b ++ [c])). unfold replaceConst.
  destruct (c =? LF)%N eqn:E.
  - change (c :: t) with ([c] ++ t). rewrite replace_go_hit; [|done|].
    + by destruct (replace_go _ _ tt (b ++ [c]) 0 t) as [[] out].
    + unfold matchAt, newlineRe. cbn. by rewrite E.
  - rewrite replace_go_miss.
    + by destruct (replace_go _ _ tt (b ++ [c]) 0 t) as [[] out].
    + unfold matchAt, newlineRe. cbn. by rewrite E.
Qed.

Lemma br_no_newline t :
  cu_in LF (flat_map (λ c, if (c =? LF)%N then BR else [c]) t) = false.
Proof.
  induction t as [|c t IH]; [done|]. cbn [flat_map]. rewrite cu_in_app, IH, orb_false_r.
  destruct (c =? LF)%N eqn:E; [done|].
  unfold cu_in. cbn [existsb]. by rewrite N.eqb_sym, E.
Qed.

(** X14.  With nothing selected the preview of [App] and [Editor] is the text
    with every line feed turned into a [<br />] tag and every other code
    unit as it is, so that no line feed is left; the TypeScript component
    hands the text on untouched. *)
Theorem preview_without_selection :
  (∀ st, App.selections st = [] →
     App.highlightedText st
     = Some (flat_map (λ c, if (c =? LF)%N then BR else [c]) (App.markdown st)))
  ∧ (∀ st, Editor.selections st = [] →
     Editor.highlightedText st
     = Some (flat_map (λ c, if (c =? LF)%N then BR else [c]) (Editor.markdown st)))
  ∧ (∀ st, AppTs.selections st = [] → AppTs.highlightedText st = Some (AppTs.markdown st))
  ∧ (∀ t, cu_in LF (replace newlineRe BR t) = false).
Proof.
  split_and!.
  - intros st Hs. unfold App.highlightedText. rewrite Hs. cbn.
    by rewrite replace_plain, replaceConst_newline.
  - intros st Hs. unfold Editor.highlightedText. rewrite Hs. cbn.
    by rewrite replace_plain, replaceConst_newline.
  - intros st Hs. unfold AppTs.highlightedText. by rewrite Hs.
  - intros t. rewrite replace_plain, replaceConst_newline by done. apply br_no_newline.
Qed.

Lemma preview_without_selection_witness :
  let st := appState [ch "a"; LF; ch "b"] [] in
  App.selections st = []
  ∧ App.highlightedText st
    = Some (flat_map (λ c, if (c =? LF)%N then BR else [c]) (App.markdown st)).
Proof.
  split; [reflexivity|].
  by apply (proj1 preview_without_selection).
Defined.

(** *** Markers and wrappers that stay whole *)

Lemma numbered_words_elem k ws a : a ∈ numbered k ws → word a ∈ ws.
Proof. intros (i & Hi & _)%numbered_elem. by eapply list_elem_of_lookup_2. Qed.

(** X15.  In both [App] components, when no target can overlap the marker
    of a target selected before it, [generateAndSetQuiz] leaves every
    marker whole: the quiz text is the source text in which occurrences
    of targets stand replaced by the marker of the target's number, as
    the answer key has it, and every other code unit is kept.  The
    replaced occurrences are those of the passes of the loop, one target
    after another in insertion order. *)
Theorem generate_markers_whole :
  (∀ st : App.State,
     App.selections st ≠ [] →
     nonemptyTargets (App.selections st) →
     clearOfEarlier (λ n _, App.blank n) 1 (App.selections st) = true →
     ∃ st', App.generateAndSetQuiz st = Some st'
       ∧ Blanked (λ n _, App.blank n) (λ a, a ∈ App.quizAnswers st')
           (App.markdown st) (App.quizText st')
       ∧ Chain (λ n _, App.blank n) 1 (App.selections st) (App.markdown st)
           (App.quizText st'))
  ∧ (∀ st : AppTs.State,
     AppTs.selections st ≠ [] →
     nonemptyTargets (AppTs.selections st) →
     clearOfEarlier (λ n _, AppTs.blank n) 1 (AppTs.selections st) = true →
     ∃ st', AppTs.generateAndSetQuiz st = Some st'
       ∧ Blanked (λ n _, AppTs.blank n) (λ a, a ∈ AppTs.quizAnswers st')
           (AppTs.markdown st) (AppTs.quizText st')
       ∧ Chain (λ n _, AppTs.blank n) 1 (AppTs.selections st) (AppTs.markdown st)
           (AppTs.quizText st')).
Proof.
  split; intros st Hsel Hne Hclear; eexists.
  - split; [by apply App_generate_eq|]. cbn [App.quizText App.quizAnswers]. split.
    + apply seqReplace_whole; [done | intros; apply App_blank_plain | done].
    + apply Chain_seqReplace; [done|]. intros. apply App_blank_plain.
  - split; [by apply AppTs_generate_eq|]. cbn [AppTs.quizText AppTs.quizAnswers].
    split.
    + apply seqReplace_whole; [done | intros; apply AppTs_blank_plain | done].
    + apply Chain_seqReplace; [done|]. intros. apply AppTs_blank_plain.
Qed.

Lemma generate_markers_whole_witness :
  let st := appTsState (str "The quick brown fox") [str "fox"; str "quick"] in
  AppTs.selections st ≠ [] ∧ nonemptyTargets (AppTs.selections st)
  ∧ clearOfEarlier (λ n _, AppTs.blank n) 1 (AppTs.selections st) = true
  ∧ ∃ st', AppTs.generateAndSetQuiz st = Some st'
      ∧ AppTs.quizText st'
        = str "The " ++ AppTs.blank 2 ++ str " brown " ++ AppTs.blank 1
      ∧ Blanked (λ n _, AppTs.blank n) (λ a, a ∈ AppTs.quizAnswers st')
          (AppTs.markdown st) (AppTs.quizText st')
      ∧ Chain (λ n _, AppTs.blank n) 1 (AppTs.selections st) (AppTs.markdown st)
          (AppTs.quizText st').
Proof.
  assert (nonemptyTargets [str "fox"; str "quick"]) as Hne.
  { intros w [->|[->|[]%elem_of_nil]%elem_of_cons]%elem_of_cons; done. }
  assert (clearOfEarlier (λ n _, AppTs.blank n) 1 [str "fox"; str "quick"] = true)
    as Hclear by reflexivity.
  split; [done|]. split; [exact Hne|]. split; [exact Hclear|].
  destruct (proj2 generate_markers_whole
              (appTsState (str "The quick brown fox") [str "fox"; str "quick"])
              ltac:(done) Hne Hclear) as (st' & Hgen & HB & HC).
  exists st'. split; [exact Hgen|]. split; [|split; [exact HB | exact HC]].
  assert (Some st' = AppTs.generateAndSetQuiz
                       (appTsState (str "The quick brown fox")
                          [str "fox"; str "quick"])) as E
    by (by rewrite Hgen).
  vm_compute in E. by injection E as ->.
Defined.

(** X16.  In all three components, for non-empty targets without a dollar
    sign none of which can overlap the wrapper of a target selected before
    it, [highlightedText] leaves every wrapper whole: the marked text is
    the source text in which occurrences of targets stand wrapped in the
    [mark] element, the payload being the target, and every other code
    unit is kept.  The wrapped occurrences are those of the passes of the
    loop, one target after another in insertion order; [App] and [Editor]
    then turn the line feeds into tags, the TypeScript component does
    not. *)
Theorem highlight_wrappers_whole :
  (∀ st : App.State,
     App.selections st ≠ [] → nonemptyTargets (App.selections st) →
     (∀ w, w ∈ App.selections st → cu_in DOLLAR w = false) →
     clearOfEarlier (λ _ w, markTemplate w) 1 (App.selections st) = true →
     ∃ marked,
       Blanked (λ _ w, markTemplate w) (λ a, word a ∈ App.selections st)
         (App.markdown st) marked
       ∧ Chain (λ _ w, markTemplate w) 1 (App.selections st) (App.markdown st) marked
       ∧ App.highlightedText st = Some (replace newlineRe BR marked))
  ∧ (∀ st : Editor.State,
     Editor.selections st ≠ [] → nonemptyTargets (Editor.selections st) →
     (∀ w, w ∈ Editor.selections st → cu_in DOLLAR w = false) →
     clearOfEarlier (λ _ w, markTemplate w) 1 (Editor.selections st) = true →
     ∃ marked,
       Blanked (λ _ w, markTemplate w) (λ a, word a ∈ Editor.selections st)
         (Editor.markdown st) marked
       ∧ Chain (λ _ w, markTemplate w) 1 (Editor.selections st) (Editor.markdown st)
           marked
       ∧ Editor.highlightedText st = Some (replace newlineRe BR marked))
  ∧ (∀ st : AppTs.State,
     AppTs.selections st ≠ [] → nonemptyTargets (AppTs.selections st) →
     (∀ w, w ∈ AppTs.selections st → cu_in DOLLAR w = false) →
     clearOfEarlier (λ _ w, markTemplate w) 1 (AppTs.selections st) = true →
     ∃ marked,
       Blanked (λ _ w, markTemplate w) (λ a, word a ∈ AppTs.selections st)
         (AppTs.markdown st) marked
       ∧ Chain (λ _ w, markTemplate w) 1 (AppTs.selections st) (AppTs.markdown st)
           marked
       ∧ AppTs.highlightedText st = Some marked).
Proof.
  assert (∀ ws t,
            ws ≠ [] → nonemptyTargets ws → (∀ w, w ∈ ws → cu_in DOLLAR w = false) →
            clearOfEarlier (λ _ w, markTemplate w) 1 ws = true →
            Blanked (λ _ w, markTemplate w) (λ a, word a ∈ ws) t
              (seqReplace (λ _ w, markTemplate w) 1 ws t)
            ∧ Chain (λ _ w, markTemplate w) 1 ws t
                (seqReplace (λ _ w, markTemplate w) 1 ws t)) as Hloop.
  { intros ws t Hsel Hne Hplain Hclear.
    assert (∀ (k : N) w, w ∈ ws → cu_in DOLLAR (markTemplate w) = false) as Hp
      by (intros k w Hw; by apply markTemplate_plain, Hplain).
    split; [|by apply Chain_seqReplace].
    eapply Blanked_mono; [|by apply seqReplace_whole].
    intros a. apply numbered_words_elem. }
  split_and!; intros st Hsel Hne Hplain Hclear;
    destruct (Hloop _ (ltac:(first [exact (App.markdown st)
                                   | exact (Editor.markdown st)
                                   | exact (AppTs.markdown st)]))
                Hsel Hne Hplain Hclear) as [HB HC];
    eexists; (split; [exact HB|]); (split; [exact HC|]).
  - unfold App.highlightedText, Array_from.
    by rewrite size_nonzero, (forEach_highlightStep _ _ 1).
  - unfold Editor.highlightedText, Array_from.
    by rewrite size_nonzero, (forEach_highlightStep _ _ 1).
  - unfold AppTs.highlightedText, Array_from.
    by rewrite size_nonzero, (forEach_highlightStep _ _ 1).
Qed.

Lemma highlight_wrappers_whole_witness :
  let st := editorState (str "The quick brown fox") [str "fox"; str "quick"] in
  Editor.selections st ≠ [] ∧ nonemptyTargets (Editor.selections st)
  ∧ (∀ w, w ∈ Editor.selections st → cu_in DOLLAR w = false)
  ∧ clearOfEarlier (λ _ w, markTemplate w) 1 (Editor.selections st) = true
  ∧ ∃ marked,
      Blanked (λ _ w, markTemplate w) (λ a, word a ∈ Editor.selections st)
        (Editor.markdown st) marked
      ∧ Chain (λ _ w, markTemplate w) 1 (Editor.selections st) (Editor.markdown st)
          marked
      ∧ Editor.highlightedText st = Some (replace newlineRe BR marked).
Proof.
  assert (nonemptyTargets [str "fox"; str "quick"]) as Hne.
  { intros w [->|[->|[]%elem_of_nil]%elem_of_cons]%elem_of_cons; done. }
  assert (∀ w, w ∈ [str "fox"; str "quick"] → cu_in DOLLAR w = false) as Hplain.
  { intros w [->|[->|[]%elem_of_nil]%elem_of_cons]%elem_of_cons; reflexivity. }
  assert (clearOfEarlier (λ _ w, markTemplate w) 1 [str "fox"; str "quick"] = true)
    as Hclear by reflexivity.
  split; [done|]. split; [exact Hne|]. split; [exact Hplain|].
  split; [exact Hclear|].
  exact (proj1 (proj2 highlight_wrappers_whole)
           (editorState (str "The quick brown fox") [str "fox"; str "quick"])
           ltac:(done) Hne Hplain Hclear).
Defined.

Example highlight_fox_quick :
  Editor.highlightedText (editorState (str "The quick brown fox") [str "fox"; str "quick"])
  = Some (str "The " ++ markTemplate (str "quick") ++ str " brown "
          ++ markTemplate (str "fox")).
Proof. reflexivity. Qed.

(** *** Clicks that change nothing, and reselecting *)

(** X17.  In each of the three components a click is ignored, without any
    error, when it is not on a [MARK] element, when the element has no
    text, or when its text is not a target of the selection set. *)
Theorem click_ignored (e : ClickTarget) :
  (∀ st, tagName e ≠ str "MARK" → App.handlePreviewClick e st = st)
  ∧ (∀ st, innerText e = [] → App.handlePreviewClick e st = st)
  ∧ (∀ st, innerText e ∉ App.selections st → App.handlePreviewClick e st = st)
  ∧ (∀ st, innerText e ∉ Editor.selections st → Editor.handlePreviewClick e st = st)
  ∧ (∀ st, tagName e ≠ str "MARK" → Editor.handlePreviewClick e st = st)
  ∧ (∀ st, innerText e = [] → Editor.handlePreviewClick e st = st)
  ∧ (∀ st, tagName e ≠ str "MARK" → AppTs.handlePreviewClick e st = st)
  ∧ (∀ st, innerText e = [] → AppTs.handlePreviewClick e st = st)
  ∧ (∀ st, innerText e ∉ AppTs.selections st → AppTs.handlePreviewClick e st = st).
Proof.
  split_and!.
  - intros st Htag. unfold App.handlePreviewClick, jsstring_eqb.
    rewrite bool_decide_eq_false_2 by done. by destruct (App.viewMode st).
  - intros st Hw. unfold App.handlePreviewClick. rewrite Hw.
    destruct (App.viewMode st); [|done]. by destruct (jsstring_eqb _ _).
  - intros [m md q s a] Hw. unfold App.handlePreviewClick, App.setSelections.
    cbn in *. destruct m; [|done]. destruct (jsstring_eqb _ _); [|done].
    destruct (innerText e) as [|c w] eqn:E; [done|].
    f_equal. by apply Set_delete_absent.
  - intros [md s] Hw. unfold Editor.handlePreviewClick, Editor.setSelections.
    cbn in *. destruct (jsstring_eqb _ _); [|done].
    destruct (innerText e) as [|c w] eqn:E; [done|].
    f_equal. by apply Set_delete_absent.
  - intros st Htag. unfold Editor.handlePreviewClick, jsstring_eqb.
    by rewrite bool_decide_eq_false_2.
  - intros st Hw. unfold Editor.handlePreviewClick. rewrite Hw.
    by destruct (jsstring_eqb _ _).
  - intros st Htag. unfold AppTs.handlePreviewClick, jsstring_eqb.
    rewrite bool_decide_eq_false_2 by done. by destruct (AppTs.viewMode st).
  - intros st Hw. unfold AppTs.handlePreviewClick. rewrite Hw.
    destruct (AppTs.viewMode st); [|done]. by destruct (jsstring_eqb _ _).
  - intros [d m md q s a] Hw. unfold AppTs.handlePreviewClick, AppTs.setSelections.
    cbn in *. destruct m; [|done]. destruct (jsstring_eqb _ _); [|done].
    destruct (innerText e) as [|c w] eqn:E; [done|].
    f_equal. by apply Set_delete_absent.
Qed.

Lemma click_ignored_witness :
  let e := {| tagName := str "MARK"; innerText := str "cat" |} in
  let p := {| tagName := str "P"; innerText := str "dog" |} in
  let st := appState (str "cat cat dog") [str "dog"] in
  let ed := editorState (str "cat cat dog") [str "dog"] in
  (innerText e ∉ App.selections st) ∧ App.handlePreviewClick e st = st
  ∧ tagName p ≠ str "MARK" ∧ Editor.handlePreviewClick p ed = ed.
Proof.
  assert (str "cat" ∉ [str "dog"]) as Hw.
  { intros H%list_elem_of_singleton. discriminate. }
  assert (str "P" ≠ str "MARK") as Htag by discriminate.
  split; [exact Hw|]. split.
  - exact (proj1 (proj2 (proj2
             (click_ignored {| tagName := str "MARK"; innerText := str "cat" |})))
             (appState (str "cat cat dog") [str "dog"]) Hw).
  - split; [exact Htag|].
    exact (proj1 (proj2 (proj2 (proj2 (proj2
             (click_ignored {| tagName := str "P"; innerText := str "dog" |})))))
             (editorState (str "cat cat dog") [str "dog"]) Htag).
Defined.

Lemma Set_add_delete w (s : StringSet) : Set_add w (Set_delete w s) = Set_delete w s ++ [w].
Proof. unfold Set_add. rewrite decide_False; [done | apply Set_delete_gone]. Qed.

(** X18.  Deselecting a target by a click and selecting it again puts it behind
    all other targets, so that it gets the last number of the next quiz;
    the other targets keep their order. *)
Theorem reselect_moves_last (w : jsstring) (st : App.State) :
  App.viewMode st = select → w ≠ [] → trim w = w →
  App.selections
    (App.handleSelection w
       (App.handlePreviewClick {| tagName := str "MARK"; innerText := w |} st))
  = Set_delete w (App.selections st) ++ [w].
Proof.
  intros Hm Hw Ht. unfold App.handlePreviewClick. rewrite Hm. cbn [tagName innerText].
  change (jsstring_eqb (str "MARK") (str "MARK")) with true. cbv iota.
  destruct w as [|c r] eqn:E; [done|]. rewrite <- E in *.
  unfold App.handleSelection. cbn [App.viewMode App.setSelections]. rewrite Hm, Ht.
  rewrite E at 1. cbn [App.selections App.setSelections]. by rewrite Set_add_delete.
Qed.

Lemma reselect_moves_last_witness :
  let st := appState (str "The quick brown fox") [str "fox"; str "quick"] in
  App.viewMode st = select ∧ str "fox" ≠ [] ∧ trim (str "fox") = str "fox"
  ∧ App.selections
      (App.handleSelection (str "fox")
         (App.handlePreviewClick {| tagName := str "MARK"; innerText := str "fox" |} st))
    = Set_delete (str "fox") (App.selections st) ++ [str "fox"].
Proof.
  split; [reflexivity|]. split; [done|]. split; [reflexivity|].
  by apply reselect_moves_last.
Defined.
